(** * pyLSHash.storage: the storage back ends of the LSH index

    A shallow embedding of [pyLSHash/storage.py]: the factory [storage],
    the in-memory back end [InMemoryStorage] and the Redis back end
    [RedisStorage], followed by the properties of the storage contract.

    Python objects are modelled with an explicit heap: a list or a dict is
    an object at a location, and a value that denotes one is a reference
    to it.  The in-memory back end keeps the references it is given, so
    its methods run on the heap.  The Redis back end serialises what it is
    given, so its methods run on the key space of the service. *)

From Stdlib Require Import ZArith String Ascii DecimalString DecimalPos DecimalZ.
From stdpp Require Import base list strings gmap.

Local Open Scope string_scope.
Local Open Scope list_scope.
Local Set Warnings "-register-all".

(** ** Exceptions and the state-and-exception monad *)

Module Py.

(** The exceptions the module and the libraries under it raise. *)
Inductive exn : Type :=
| KeyError (key : string)
| AttributeError
| TypeError
| ValueError (msg : string)
| ImportError (msg : string)
| RecursionError
| JSONDecodeError
| UnicodeEncodeError
| UnicodeDecodeError
| DataError
| ResponseError
| Unmodelled.
(** [Unmodelled] is not a Python exception: a call ends with it where it
    leaves what the model covers (a location that holds no object, a
    value of the model that is no Python value, a text that is not
    ASCII given to the JSON decoder, an option of the client that
    changes its encoding). *)

(** A call returns a value or raises. *)
Definition outcome (A : Type) : Type := (exn + A)%type.

(** A computation over a state of type [S]; what was written before an
    exception is raised stays written. *)
Definition M (S A : Type) : Type := S -> outcome A * S.

Definition ret {S A} (a : A) : M S A := fun s => (inr a, s).

Definition raise {S A} (e : exn) : M S A := fun s => (inl e, s).

Definition bind {S A B} (c : M S A) (k : A -> M S B) : M S B :=
  fun s =>
    match c s with
    | (inr a, s') => k a s'
    | (inl e, s') => (inl e, s')
    end.

Definition get {S} : M S S := fun s => (inr s, s).

Definition put {S} (s : S) : M S unit := fun _ => (inr tt, s).

(** The state a computation leaves, whether it returned or raised. *)
Definition exec {S A} (c : M S A) (s : S) : S := snd (c s).

(** The outcome of a computation. *)
Definition eval {S A} (c : M S A) (s : S) : outcome A := fst (c s).

Module Notations.
Notation "'do' x <- c ; k" := (bind c (fun x => k))
  (at level 10, x pattern, c at level 100, k at level 200).
Notation "c ;; k" := (bind c (fun _ => k))
  (at level 100, k at level 200, right associativity).
End Notations.

(** All elements of a list through a computation, in order; the first
    exception ends the loop. *)
Fixpoint for_each {S A B} (f : A -> M S B) (l : list A) : M S (list B) :=
  match l with
  | [] => ret []
  | a :: l' =>
      bind (f a) (fun b => bind (for_each f l') (fun bs => ret (b :: bs)))
  end.

(** Runs a computation that has no state. *)
Definition lift {S A} (r : outcome A) : M S A := fun s => (r, s).

(** *** Values and objects *)

(** A location of the heap. *)
Abbreviation loc := nat.

(** A value: an immutable datum, or a reference to a mutable object. *)
Inductive val : Type :=
| VNone
| VBool (b : bool)
| VInt (n : Z)
| VStr (s : string)
| VBytes (s : string)
| VTuple (vs : list val)
| VRef (l : loc).

(** A dict with string keys, in insertion order. *)
Abbreviation dict V := (list (string * V)).

(** A mutable object. *)
Inductive obj : Type :=
| OList (vs : list val)
| ODict (d : dict val).

(** The heap: the objects, each at its location. *)
Abbreviation heap := (list obj).

End Py.

Import Py Py.Notations.

(** ** Python's str *)

Module Str.

(** [s2.startswith(s1)]. *)
Fixpoint starts_with (s1 s2 : string) : bool :=
  match s1, s2 with
  | EmptyString, _ => true
  | String c1 s1', String c2 s2' => Ascii.eqb c1 c2 && starts_with s1' s2'
  | String _ _, EmptyString => false
  end.

(** [s1 in s2] for two strings. *)
Fixpoint substring_of (s1 s2 : string) : bool :=
  starts_with s1 s2 ||
  match s2 with
  | EmptyString => false
  | String _ s2' => substring_of s1 s2'
  end.

(** [s[n:]]: a string without its first [n] characters. *)
Fixpoint drop_chars (n : nat) (s : string) : string :=
  match n, s with
  | S n', String _ s' => drop_chars n' s'
  | _, _ => s
  end.

End Str.

Import Str.

(** ** Python's dict *)

Module Dict.

(** [key in d]. *)
Fixpoint contains {V} (key : string) (d : dict V) : bool :=
  match d with
  | [] => false
  | (k, _) :: d' => if String.eqb key k then true else contains key d'
  end.

(** [d.get(key)], [None] when the key is absent. *)
Fixpoint lookup {V} (key : string) (d : dict V) : option V :=
  match d with
  | [] => None
  | (k, v) :: d' => if String.eqb key k then Some v else lookup key d'
  end.

(** [d[key] = v]: the value of a present key is replaced where it stands, a
    new key goes last. *)
Fixpoint set {V} (key : string) (v : V) (d : dict V) : dict V :=
  match d with
  | [] => [(key, v)]
  | (k, w) :: d' =>
      if String.eqb key k then (k, v) :: d' else (k, w) :: set key v d'
  end.

(** [d.keys()], as the view shows them when it is read. *)
Definition keys {V} (d : dict V) : list string := map fst d.

(** [dict(pairs)]: a later pair overwrites an earlier one of the same key. *)
Definition of_pairs {V} (pairs : list (string * V)) : dict V :=
  fold_left (fun d kv => set (fst kv) (snd kv) d) pairs [].

End Dict.

(** ** The heap *)

Module Heap.

(** A new object takes the next location. *)
Definition alloc (o : obj) : M heap val :=
  fun h => (inr (VRef (length h)), h ++ [o]).

(** [v.append(x)]: only a list has the method. *)
Definition append (v x : val) : M heap unit :=
  fun h =>
    match v with
    | VRef l =>
        match h !! l with
        | Some (OList vs) => (inr tt, <[l := OList (vs ++ [x])]> h)
        | Some (ODict _) => (inl AttributeError, h)
        | None => (inl Unmodelled, h)
        end
    | _ => (inl AttributeError, h)
    end.

(** Whether a value is the string [key]. *)
Definition is_str (key : string) (v : val) : bool :=
  match v with
  | VStr s => String.eqb key s
  | _ => false
  end.

(** [key in v] for a string [key]: a key of a dict, an element of a list
    or of a tuple, a part of a string. *)
Definition contains (key : string) (v : val) : M heap bool :=
  fun h =>
    match v with
    | VRef l =>
        match h !! l with
        | Some (ODict d) => (inr (Dict.contains key d), h)
        | Some (OList vs) => (inr (existsb (is_str key) vs), h)
        | None => (inl Unmodelled, h)
        end
    | VTuple vs => (inr (existsb (is_str key) vs), h)
    | VStr s => (inr (substring_of key s), h)
    | VNone | VBool _ | VInt _ | VBytes _ => (inl TypeError, h)
    end.

(** [v[key]] for a dict [v]. *)
Definition getitem (v : val) (key : string) : M heap val :=
  fun h =>
    match v with
    | VRef l =>
        match h !! l with
        | Some (ODict d) =>
            match Dict.lookup key d with
            | Some x => (inr x, h)
            | None => (inl (KeyError key), h)
            end
        | Some (OList _) => (inl TypeError, h)
        | None => (inl Unmodelled, h)
        end
    | _ => (inl TypeError, h)
    end.

(** [v[key] = x]: a dict is updated in place; nothing else takes an item
    under a string key. *)
Definition setitem (v : val) (key : string) (x : val) : M heap unit :=
  fun h =>
    match v with
    | VRef l =>
        match h !! l with
        | Some (ODict d) => (inr tt, <[l := ODict (Dict.set key x d)]> h)
        | Some (OList _) => (inl TypeError, h)
        | None => (inl Unmodelled, h)
        end
    | _ => (inl TypeError, h)
    end.

(** The elements of the list a value refers to. *)
Definition list_of (h : heap) (v : val) : option (list val) :=
  match v with
  | VRef l => match h !! l with Some (OList vs) => Some vs | _ => None end
  | _ => None
  end.

(** The entries of the dict a value refers to. *)
Definition dict_of (h : heap) (v : val) : option (dict val) :=
  match v with
  | VRef l => match h !! l with Some (ODict d) => Some d | _ => None end
  | _ => None
  end.

End Heap.

(** ** [class InMemoryStorage] *)

Module InMemoryStorage.

(** The instance: its dict belongs to it alone and is held by value; the
    lists in it are objects of the heap, shared with the caller. *)
Record t : Type := Build { name : string; storage : dict val }.

(** The heap together with the instance the methods are called on. *)
Record world : Type := World { objects : heap; self : t }.

(** Runs a heap computation in the world of an instance. *)
Definition on_heap {A} (c : M heap A) : M world A :=
  fun w =>
    let (r, h) := c (objects w) in (r, World h (self w)).

Definition set_storage (d : dict val) : M world unit :=
  fun w => (inr tt, World (objects w) (Build (name (self w)) d)).

Definition get_storage : M world (dict val) :=
  fun w => (inr (storage (self w)), w).

(** [__init__(self, config)]. *)
Definition init (config : val) : t := {| name := "dict"; storage := [] |}.

(** [keys(self)]. *)
Definition keys : M world (list string) :=
  do d <- get_storage;
  ret (Dict.keys d).

(** [set_val(self, key, val)]. *)
Definition set_val (key : string) (v : val) : M world unit :=
  do d <- get_storage;
  set_storage (Dict.set key v d).

(** [get_val(self, key)]. *)
Definition get_val (key : string) : M world val :=
  do d <- get_storage;
  match Dict.lookup key d with
  | Some v => ret v
  | None => raise (KeyError key)
  end.

(** [d.setdefault(key, default)]. *)
Definition setdefault (key : string) (default : val) : M world val :=
  do d <- get_storage;
  match Dict.lookup key d with
  | Some v => ret v
  | None => set_storage (Dict.set key default d) ;; ret default
  end.

(** [append_val(self, key, val)]: the argument [[]] is built before
    [setdefault] is called. *)
Definition append_val (key : string) (v : val) : M world unit :=
  do fresh <- on_heap (Heap.alloc (OList []));
  do target <- setdefault key fresh;
  on_heap (Heap.append target v).

(** [get_list(self, key)]: the default [[]] is built before [get] is
    called. *)
Definition get_list (key : string) : M world val :=
  do fresh <- on_heap (Heap.alloc (OList []));
  do d <- get_storage;
  match Dict.lookup key d with
  | Some v => ret v
  | None => ret fresh
  end.

(** [clear(self)]. *)
Definition clear : M world unit :=
  set_storage [].

(** A new instance, in the heap of its caller. *)
Definition fresh (h : heap) (config : val) : world :=
  World h (init config).

(** A call of a method. *)
Inductive call : Type :=
| Keys
| SetVal (key : string) (v : val)
| GetVal (key : string)
| AppendVal (key : string) (v : val)
| GetList (key : string)
| Clear.

(** The world a call leaves, whether it returns or raises. *)
Definition step (w : world) (c : call) : world :=
  match c with
  | Keys => exec keys w
  | SetVal key v => exec (set_val key v) w
  | GetVal key => exec (get_val key) w
  | AppendVal key v => exec (append_val key v) w
  | GetList key => exec (get_list key) w
  | Clear => exec clear w
  end.

(** The world a sequence of calls leaves. *)
Definition run (w : world) (cs : list call) : world := fold_left step cs w.

(** What [get_list(key)] shows: the elements of the list it returns, if it
    returns a list. *)
Definition listing (key : string) (w : world) : option (list val) :=
  match get_list key w with
  | (inr v, w') => Heap.list_of (objects w') v
  | (inl _, _) => None
  end.

(** Whether a call sets a scalar at the key. *)
Definition sets (key : string) (c : call) : bool :=
  match c with
  | SetVal k _ => String.eqb key k
  | _ => false
  end.

(** Whether a call writes at the key. *)
Definition writes (key : string) (c : call) : bool :=
  match c with
  | SetVal k _ | AppendVal k _ => String.eqb key k
  | _ => false
  end.

Definition is_clear (c : call) : bool :=
  match c with
  | Clear => true
  | _ => false
  end.

(** The key holds a reference to a list with these elements. *)
Definition holds_list (key : string) (w : world) (xs : list val) : Prop :=
  exists r, Dict.lookup key (storage (self w)) = Some (VRef r) /\
            objects w !! r = Some (OList xs).

(** The key is free. *)
Definition absent (key : string) (w : world) : Prop :=
  Dict.lookup key (storage (self w)) = None.

End InMemoryStorage.

(** ** Python's str, by code points *)

Module Text.

(** A [str] is the sequence of its code points; a code point is below
    1114112 (0x110000).  The keys of the back ends and the documents of
    the JSON codec stay [string]s of bytes and of ASCII characters. *)
Abbreviation text := (list N).

Definition is_code_point (c : N) : bool := (c <? 1114112)%N.

Definition is_text (t : text) : bool := forallb is_code_point t.

(** The [str] of the characters of a [string]. *)
Fixpoint text_of (s : string) : text :=
  match s with
  | EmptyString => []
  | String c s' => N_of_ascii c :: text_of s'
  end.

(** The characters of a [str] whose code points are below 256. *)
Fixpoint chars_of (t : text) : string :=
  match t with
  | [] => ""
  | c :: t' => String (ascii_of_N c) (chars_of t')
  end.

(** The surrogates: the code points from 0xD800 to 0xDFFF, high ones up to
    0xDBFF and low ones from 0xDC00.  A [str] may hold them. *)
Definition is_high (c : N) : bool := ((55296 <=? c) && (c <=? 56319))%N.

Definition is_low (c : N) : bool := ((56320 <=? c) && (c <=? 57343))%N.

Definition is_surrogate (c : N) : bool := ((55296 <=? c) && (c <=? 57343))%N.

(** The code point a high and a low surrogate stand for together. *)
Definition join (high low : N) : N :=
  (65536 + (high - 55296) * 1024 + (low - 56320))%N.

(** A [str] in which every high surrogate that a low surrogate follows has
    been joined with it. *)
Fixpoint join_surrogates (t : text) : text :=
  match t with
  | [] => []
  | c :: t' =>
      match t' with
      | low :: t'' =>
          if is_high c && is_low low then join c low :: join_surrogates t''
          else c :: join_surrogates t'
      | [] => [c]
      end
  end.

Definition is_ascii_text (t : text) : bool := forallb (fun c => (c <? 128)%N) t.

End Text.

Import Text.

(** ** The UTF-8 codec of [str.encode] and [bytes.decode] *)

Module Utf8.

Definition byte (n : N) : ascii := ascii_of_N n.

(** The bytes of a code point; a surrogate has none. *)
Definition encode_char (c : N) : outcome string :=
  if (c <? 128)%N then inr (String (byte c) "")
  else if (c <? 2048)%N then
    inr (String (byte (192 + c / 64)) (String (byte (128 + c mod 64)) ""))
  else if (c <? 65536)%N then
    if is_surrogate c then inl UnicodeEncodeError
    else
      inr (String (byte (224 + c / 4096))
             (String (byte (128 + (c / 64) mod 64))
                (String (byte (128 + c mod 64)) "")))
  else if (c <? 1114112)%N then
    inr (String (byte (240 + c / 262144))
           (String (byte (128 + (c / 4096) mod 64))
              (String (byte (128 + (c / 64) mod 64))
                 (String (byte (128 + c mod 64)) ""))))
  else inl Unmodelled.

(** [t.encode("utf-8")]. *)
Fixpoint encode (t : text) : outcome string :=
  match t with
  | [] => inr ""
  | c :: t' =>
      match encode_char c with
      | inl e => inl e
      | inr b =>
          match encode t' with
          | inl e => inl e
          | inr bs => inr (b +:+ bs)
          end
      end
  end.

(** The six low bits of a continuation byte. *)
Definition continuation (b : ascii) : option N :=
  let n := N_of_ascii b in
  if ((128 <=? n) && (n <? 192))%N then Some (n - 128)%N else None.

Definition push (c : N) (r : outcome text) : outcome text :=
  match r with
  | inl e => inl e
  | inr t => inr (c :: t)
  end.

(** [b.decode("utf-8")]: a sequence is refused when it is cut short, when
    it is longer than its code point needs, and when it gives a surrogate
    or a number that is no code point. *)
Fixpoint decode (b : string) : outcome text :=
  match b with
  | EmptyString => inr []
  | String b0 s1 =>
      let n0 := N_of_ascii b0 in
      if (n0 <? 128)%N then push n0 (decode s1)
      else if (n0 <? 192)%N then inl UnicodeDecodeError
      else if (n0 <? 224)%N then
        match s1 with
        | String b1 s2 =>
            match continuation b1 with
            | Some x1 =>
                let c := ((n0 - 192) * 64 + x1)%N in
                if (c <? 128)%N then inl UnicodeDecodeError
                else push c (decode s2)
            | None => inl UnicodeDecodeError
            end
        | EmptyString => inl UnicodeDecodeError
        end
      else if (n0 <? 240)%N then
        match s1 with
        | String b1 (String b2 s3) =>
            match continuation b1, continuation b2 with
            | Some x1, Some x2 =>
                let c := (((n0 - 224) * 64 + x1) * 64 + x2)%N in
                if (c <? 2048)%N || is_surrogate c then inl UnicodeDecodeError
                else push c (decode s3)
            | _, _ => inl UnicodeDecodeError
            end
        | _ => inl UnicodeDecodeError
        end
      else if (n0 <? 248)%N then
        match s1 with
        | String b1 (String b2 (String b3 s4)) =>
            match continuation b1, continuation b2, continuation b3 with
            | Some x1, Some x2, Some x3 =>
                let c := ((((n0 - 240) * 64 + x1) * 64 + x2) * 64 + x3)%N in
                if (c <? 65536)%N || negb (c <? 1114112)%N
                then inl UnicodeDecodeError
                else push c (decode s4)
            | _, _, _ => inl UnicodeDecodeError
            end
        | _ => inl UnicodeDecodeError
        end
      else inl UnicodeDecodeError
  end.

End Utf8.

(** ** Python's float *)

Module Float.

(** A numeric literal with a fraction or an exponent, by its parts: a
    sign, the digits before the point, the digits after it if there is a
    point, and the sign and the digits of the exponent if there is one. *)
Record literal : Type := Literal {
  negative : bool;
  whole : Decimal.uint;
  fraction : option Decimal.uint;
  exponent : option (bool * Decimal.uint)
}.

(** A float is not a number, or infinite, or finite; a finite float is
    known by its [repr], the shortest literal that denotes it. *)
Inductive t : Type :=
| NaN
| Infinity (negative : bool)
| Finite (repr : literal).

(** The text of a literal, as [repr] writes one: the exponent has its
    sign. *)
Definition render_literal (l : literal) : string :=
  (if negative l then "-" else "") +:+
  NilEmpty.string_of_uint (whole l) +:+
  match fraction l with
  | Some u => "." +:+ NilEmpty.string_of_uint u
  | None => ""
  end +:+
  match exponent l with
  | Some (minus, u) =>
      "e" +:+ (if minus : bool then "-" else "+") +:+ NilEmpty.string_of_uint u
  | None => ""
  end.

(** The digits before the point: [0], or digits that do not start with
    [0]. *)
Definition is_whole (u : Decimal.uint) : bool :=
  match u with
  | Decimal.Nil => false
  | Decimal.D0 Decimal.Nil => true
  | Decimal.D0 _ => false
  | _ => true
  end.

Definition has_digits (u : Decimal.uint) : bool :=
  match u with
  | Decimal.Nil => false
  | _ => true
  end.

(** The literals of the grammar of floats: there is a fraction or an
    exponent, and neither is without digits. *)
Definition is_literal (l : literal) : bool :=
  is_whole (whole l) &&
  match fraction l with Some u => has_digits u | None => true end &&
  match exponent l with Some (_, u) => has_digits u | None => true end &&
  match fraction l, exponent l with None, None => false | _, _ => true end.

(** [float.__repr__]. *)
Definition repr (f : t) : string :=
  match f with
  | NaN => "nan"
  | Infinity false => "inf"
  | Infinity true => "-inf"
  | Finite l => render_literal l
  end.


#[global] Instance uint_eq_dec : EqDecision Decimal.uint.
Proof. solve_decision. Defined.

#[global] Instance literal_eq_dec : EqDecision literal.
Proof. solve_decision. Defined.

#[global] Instance eq_dec : EqDecision t.
Proof. solve_decision. Defined.

End Float.

(** ** The interpreter

    What the behaviour of the module depends on and the module does not
    set: the depth of nesting that the recursion limit leaves to the JSON
    encoder and to the JSON decoder where the back end is called, the
    limit on the digits of an integer that is converted to or from text
    ([sys.get_int_max_str_digits()]; 0 lifts the limit, and no limit below
    640 can be set), and the float that a literal denotes ([float(s)]). *)
Record interpreter : Type := Interpreter {
  encoder_depth : nat;
  decoder_depth : nat;
  int_max_str_digits : nat;
  float_of_literal : Float.literal -> Float.t
}.

(** The floats among the values of the model: a finite one is written as
    the literal that [repr] gives, which denotes it. *)
Definition is_float (env : interpreter) (f : Float.t) : bool :=
  match f with
  | Float.Finite l =>
      Float.is_literal l && bool_decide (float_of_literal env l = Float.Finite l)
  | _ => true
  end.

(** ** Python's int as text *)

Module Int.

(** The number of decimal digits of an integer. *)
Definition digits (n : Z) : nat :=
  match Z.to_int n with
  | Decimal.Pos u | Decimal.Neg u => Decimal.nb_digits u
  end.

(** An integer in decimal. *)
Definition render (n : Z) : string :=
  NilZero.string_of_int (Z.to_int n).

Definition limit_message : string :=
  "Exceeds the limit for integer string conversion".

(** Whether a number of digits is over the limit of the interpreter. *)
Definition exceeds (env : interpreter) (digits : nat) : bool :=
  Nat.ltb 0 (int_max_str_digits env) && Nat.ltb (int_max_str_digits env) digits.

(** [int.__repr__]. *)
Definition repr (env : interpreter) (n : Z) : outcome string :=
  if exceeds env (digits n) then inl (ValueError limit_message)
  else inr (render n).

End Int.

(** ** Values by structure *)

(** What the Redis back end is given it serialises at once, and what it
    returns it builds anew: it holds no reference to an object of its
    caller.  Its arguments and results are therefore values taken with all
    they contain, as finite trees.  The keys of a dict are [str]s. *)
Inductive data : Type :=
| PNone
| PBool (b : bool)
| PInt (n : Z)
| PFloat (f : Float.t)
| PStr (s : text)
| PBytes (s : string)
| PTuple (ds : list data)
| PList (ds : list data)
| PDict (d : list (text * data)).

(** ** The [json] module: [json.dumps] and [json.loads] with their defaults *)

Module Json.

(** A JSON document. *)
Inductive json : Type :=
| JNull
| JBool (b : bool)
| JInt (n : Z)
| JFloat (f : Float.t)
| JStr (s : text)
| JArr (js : list json)
| JObj (members : list (text * json)).

(** All elements of a list through a function that may raise. *)
Fixpoint traverse {A B} (f : A -> outcome B) (l : list A) : outcome (list B) :=
  match l with
  | [] => inr []
  | a :: l' =>
      match f a with
      | inl e => inl e
      | inr b =>
          match traverse f l' with
          | inl e => inl e
          | inr bs => inr (b :: bs)
          end
      end
  end.

Definition quote : ascii := "034"%char.
Definition backslash : ascii := "\"%char.

(** A lower-case hexadecimal digit. *)
Definition hex_digit (n : N) : ascii :=
  match n with
  | 0 => "0" | 1 => "1" | 2 => "2" | 3 => "3" | 4 => "4" | 5 => "5"
  | 6 => "6" | 7 => "7" | 8 => "8" | 9 => "9" | 10 => "a" | 11 => "b"
  | 12 => "c" | 13 => "d" | 14 => "e" | _ => "f"
  end%N%char.

(** The escape [\uXXXX] of a number below 65536. *)
Definition unicode_escape (n : N) (tail : string) : string :=
  String backslash
    (String "u"
       (String (hex_digit (n / 4096))
          (String (hex_digit ((n / 256) mod 16))
             (String (hex_digit ((n / 16) mod 16))
                (String (hex_digit (n mod 16)) tail))))).

(** One code point of a string, as [ensure_ascii] writes it: the quote,
    the backslash and the control characters with a short form are
    escaped, a printable ASCII character stands for itself, any other
    code point is written [\uXXXX], as two surrogates when it is above
    65535. *)
Definition escape_char (c : N) : string :=
  if (c =? 34)%N then String backslash (String quote "")
  else if (c =? 92)%N then String backslash (String backslash "")
  else if (c =? 10)%N then String backslash "n"
  else if (c =? 13)%N then String backslash "r"
  else if (c =? 9)%N then String backslash "t"
  else if (c =? 8)%N then String backslash "b"
  else if (c =? 12)%N then String backslash "f"
  else if ((32 <=? c) && (c <=? 126))%N then String (ascii_of_N c) ""
  else if (c <? 65536)%N then unicode_escape c ""
  else
    unicode_escape (55296 + (c - 65536) / 1024)
      (unicode_escape (56320 + (c - 65536) mod 1024) "").

Fixpoint escape (s : text) : string :=
  match s with
  | [] => ""
  | c :: s' => escape_char c +:+ escape s'
  end.

(** A string between quotes. *)
Definition render_string (s : text) : string :=
  String quote (escape s +:+ String quote "").

(** A float: the constants are those of JavaScript, a finite float is
    written by [float.__repr__]. *)
Definition render_float (f : Float.t) : string :=
  match f with
  | Float.NaN => "NaN"
  | Float.Infinity false => "Infinity"
  | Float.Infinity true => "-Infinity"
  | Float.Finite l => Float.render_literal l
  end.

(** The items of an array or of an object, [", "] between them. *)
Fixpoint join (items : list string) : string :=
  match items with
  | [] => ""
  | [x] => x
  | x :: items' => x +:+ ", " +:+ join items'
  end.

(** The text of a document, with the default separators. *)
Fixpoint render (j : json) : string :=
  match j with
  | JNull => "null"
  | JBool true => "true"
  | JBool false => "false"
  | JInt n => Int.render n
  | JFloat f => render_float f
  | JStr s => render_string s
  | JArr js => "[" +:+ join (map render js) +:+ "]"
  | JObj members =>
      "{" +:+
      join (map (fun kv : text * json =>
                   render_string (fst kv) +:+ ": " +:+ render (snd kv))
              members) +:+
      "}"
  end.

(** [d[key] = v] for a dict with [str] keys: the value of a present key is
    replaced where it stands, a new key goes last. *)
Fixpoint assign {V} (key : text) (v : V) (d : list (text * V))
  : list (text * V) :=
  match d with
  | [] => [(key, v)]
  | (k, w) :: d' =>
      if bool_decide (key = k) then (k, v) :: d' else (k, w) :: assign key v d'
  end.

(** [dict(pairs)]: a later pair overwrites an earlier one of the same key. *)
Definition of_pairs {V} (pairs : list (text * V)) : list (text * V) :=
  fold_left (fun d kv => assign (fst kv) (snd kv) d) pairs [].

Definition is_whitespace (c : ascii) : bool :=
  match c with
  | " " | "009" | "010" | "013" => true
  | _ => false
  end%char.

Fixpoint skip_whitespace (s : string) : string :=
  match s with
  | EmptyString => ""
  | String c s' => if is_whitespace c then skip_whitespace s' else s
  end.

(** The value of a hexadecimal digit, of either case. *)
Definition hex_value (c : ascii) : option N :=
  let n := N_of_ascii c in
  if ((48 <=? n) && (n <=? 57))%N then Some (n - 48)%N
  else if ((97 <=? n) && (n <=? 102))%N then Some (n - 87)%N
  else if ((65 <=? n) && (n <=? 70))%N then Some (n - 55)%N
  else None.

Definition hex4 (c1 c2 c3 c4 : ascii) : option N :=
  match hex_value c1, hex_value c2, hex_value c3, hex_value c4 with
  | Some a, Some b, Some c, Some d => Some (((a * 16 + b) * 16 + c) * 16 + d)%N
  | _, _, _, _ => None
  end.

(** The character a one-letter escape stands for. *)
Definition unescape (c : ascii) : option ascii :=
  match c with
  | "034" => Some quote
  | "\" => Some backslash
  | "/" => Some "/"
  | "b" => Some "008"
  | "f" => Some "012"
  | "n" => Some "010"
  | "r" => Some "013"
  | "t" => Some "009"
  | _ => None
  end%char.

Definition push (c : N) (r : outcome (text * string))
  : outcome (text * string) :=
  match r with
  | inl e => inl e
  | inr (chars, rest) => inr (c :: chars, rest)
  end.

(** [scanstring]: the code points up to the closing quote, and what
    follows it.  The opening quote has been read.  A control character
    must be escaped.  After the escape of a high surrogate, when seven
    characters or more are left and the first two start an escape, this
    escape is read: a low surrogate is joined with the high one, anything
    else is left to be read again. *)
Fixpoint scanstring (s : string) : outcome (text * string) :=
  match s with
  | EmptyString => inl JSONDecodeError
  | String c s' =>
      if Ascii.eqb c quote then inr ([], s')
      else if Ascii.eqb c backslash then
        match s' with
        | EmptyString => inl JSONDecodeError
        | String e s'' =>
            if Ascii.eqb e "u" then
              match s'' with
              | String c1 (String c2 (String c3 (String c4 s3))) =>
                  match hex4 c1 c2 c3 c4 with
                  | None => inl JSONDecodeError
                  | Some n =>
                      if is_high n then
                        match s3 with
                        | String b
                            (String u
                               (String d1
                                  (String d2
                                     (String d3
                                        (String d4 ((String _ _) as s4)))))) =>
                            if Ascii.eqb b backslash && Ascii.eqb u "u" then
                              match hex4 d1 d2 d3 d4 with
                              | None => inl JSONDecodeError
                              | Some m =>
                                  if is_low m
                                  then push (Text.join n m) (scanstring s4)
                                  else push n (scanstring s3)
                              end
                            else push n (scanstring s3)
                        | _ => push n (scanstring s3)
                        end
                      else push n (scanstring s3)
                  end
              | _ => inl JSONDecodeError
              end
            else
              match unescape e with
              | None => inl JSONDecodeError
              | Some ch => push (N_of_ascii ch) (scanstring s'')
              end
        end
      else if (N_of_ascii c <? 32)%N then inl JSONDecodeError
      else push (N_of_ascii c) (scanstring s')
  end.

(** A decimal digit, as the constructor of [Decimal.uint] it stands for. *)
Definition digit (c : ascii) : option (Decimal.uint -> Decimal.uint) :=
  match c with
  | "0" => Some Decimal.D0 | "1" => Some Decimal.D1 | "2" => Some Decimal.D2
  | "3" => Some Decimal.D3 | "4" => Some Decimal.D4 | "5" => Some Decimal.D5
  | "6" => Some Decimal.D6 | "7" => Some Decimal.D7 | "8" => Some Decimal.D8
  | "9" => Some Decimal.D9
  | _ => None
  end%char.

Definition is_digit (c : ascii) : bool :=
  match digit c with Some _ => true | None => false end.

(** The longest run of digits at the head of a string. *)
Fixpoint scan_digits (s : string) : Decimal.uint * string :=
  match s with
  | EmptyString => (Decimal.Nil, "")
  | String c s' =>
      match digit c with
      | Some d => let (u, rest) := scan_digits s' in (d u, rest)
      | None => (Decimal.Nil, s)
      end
  end.

(** The integer part of a number: [0], or a run of digits that does not
    start with [0]. *)
Definition scan_integer (s : string) : option (Decimal.uint * string) :=
  match s with
  | EmptyString => None
  | String c s' =>
      if Ascii.eqb c "0" then Some (Decimal.D0 Decimal.Nil, s')
      else if is_digit c then Some (scan_digits s)
      else None
  end.

(** The fraction of a number, if there is one: a point and the digits
    after it, at least one. *)
Definition scan_fraction (s : string) : option Decimal.uint * string :=
  match s with
  | String p s1 =>
      if Ascii.eqb p "." then
        match s1 with
        | String c _ =>
            if is_digit c then let (u, rest) := scan_digits s1 in (Some u, rest)
            else (None, s)
        | EmptyString => (None, s)
        end
      else (None, s)
  | EmptyString => (None, s)
  end.

(** The exponent of a number, if there is one: [e] or [E], a sign or none,
    and digits, at least one. *)
Definition scan_exponent (s : string)
  : option (bool * Decimal.uint) * string :=
  match s with
  | String e s1 =>
      if Ascii.eqb e "e" || Ascii.eqb e "E" then
        match s1 with
        | String a s2 =>
            if is_digit a then
              let (u, rest) := scan_digits s1 in (Some (false, u), rest)
            else if Ascii.eqb a "+" || Ascii.eqb a "-" then
              match s2 with
              | String c _ =>
                  if is_digit c then
                    let (u, rest) := scan_digits s2 in
                    (Some (Ascii.eqb a "-", u), rest)
                  else (None, s)
              | EmptyString => (None, s)
              end
            else (None, s)
        | EmptyString => (None, s)
        end
      else (None, s)
  | EmptyString => (None, s)
  end.

(** Whether the next character is [c]. *)
Definition next_is (c : ascii) (s : string) : bool :=
  match s with
  | EmptyString => false
  | String c' _ => Ascii.eqb c' c
  end.

Section Codec.

Variable env : interpreter.

(** *** Encoding *)

(** The document of a value, made in one pass over the value, from left
    to right: the first item that cannot be written ends it.  A tuple is
    written as an array, like a list; [bytes] has no JSON form; an integer
    is written by [int.__repr__], which keeps to the limit on digits; a
    list, a tuple or a dict takes one level of the depth that is left. *)
Fixpoint to_json (depth : nat) (d : data) {struct d} : outcome json :=
  match d with
  | PNone => inr JNull
  | PBool b => inr (JBool b)
  | PInt n =>
      if Int.exceeds env (Int.digits n) then inl (ValueError Int.limit_message)
      else inr (JInt n)
  | PFloat f => if is_float env f then inr (JFloat f) else inl Unmodelled
  | PStr s => if is_text s then inr (JStr s) else inl Unmodelled
  | PBytes _ => inl TypeError
  | PTuple ds | PList ds =>
      match depth with
      | O => inl RecursionError
      | S depth' =>
          match traverse (to_json depth') ds with
          | inl e => inl e
          | inr js => inr (JArr js)
          end
      end
  | PDict kvs =>
      match depth with
      | O => inl RecursionError
      | S depth' =>
          match
            traverse
              (fun kv : text * data =>
                 if is_text (fst kv) then
                   match to_json depth' (snd kv) with
                   | inl e => inl e
                   | inr j => inr (fst kv, j)
                   end
                 else inl Unmodelled) kvs
          with
          | inl e => inl e
          | inr members => inr (JObj members)
          end
      end
  end.

(** [json.dumps(obj)]. *)
Definition dumps (d : data) : outcome string :=
  match to_json (encoder_depth env) d with
  | inl e => inl e
  | inr j => inr (render j)
  end.

(** *** Decoding *)

(** A number: an integer when it has neither fraction nor exponent, which
    [int] converts within the limit on digits; a float otherwise. *)
Definition scan_number (s : string) : outcome (json * string) :=
  let (minus, s1) :=
    match s with
    | String c s' => if Ascii.eqb c "-" then (true, s') else (false, s)
    | EmptyString => (false, s)
    end in
  match scan_integer s1 with
  | None => inl JSONDecodeError
  | Some (u, rest) =>
      let (fraction, rest1) := scan_fraction rest in
      let (exponent, rest2) := scan_exponent rest1 in
      match fraction, exponent with
      | None, None =>
          if Int.exceeds env (Decimal.nb_digits u)
          then inl (ValueError Int.limit_message)
          else
            inr (JInt (Z.of_int (if minus : bool then Decimal.Neg u
                                 else Decimal.Pos u)),
                 rest)
      | _, _ =>
          inr (JFloat
                 (float_of_literal env (Float.Literal minus u fraction exponent)),
               rest2)
      end
  end.

(** [scan_once]: one value at the head of a string, and what follows it.
    An array or an object takes one level of the depth that is left.  The
    recursion is bounded by fuel, which [decode] gives more of than a text
    of its length needs. *)
Fixpoint scan_once (fuel depth : nat) (s : string) {struct fuel}
  : outcome (json * string) :=
  match fuel with
  | O => inl Unmodelled
  | S fuel' =>
      if next_is quote s then
        match scanstring (drop_chars 1 s) with
        | inl e => inl e
        | inr (chars, rest) => inr (JStr chars, rest)
        end
      else if next_is "{" s then
        match depth with
        | O => inl RecursionError
        | S depth' =>
            let s1 := skip_whitespace (drop_chars 1 s) in
            if next_is "}" s1 then inr (JObj [], drop_chars 1 s1)
            else
              match parse_members fuel' depth' s1 with
              | inl e => inl e
              | inr (members, rest) => inr (JObj members, rest)
              end
        end
      else if next_is "[" s then
        match depth with
        | O => inl RecursionError
        | S depth' =>
            let s1 := skip_whitespace (drop_chars 1 s) in
            if next_is "]" s1 then inr (JArr [], drop_chars 1 s1)
            else
              match parse_items fuel' depth' s1 with
              | inl e => inl e
              | inr (js, rest) => inr (JArr js, rest)
              end
        end
      else if starts_with "null" s then inr (JNull, drop_chars 4 s)
      else if starts_with "true" s then inr (JBool true, drop_chars 4 s)
      else if starts_with "false" s then inr (JBool false, drop_chars 5 s)
      else if starts_with "NaN" s then inr (JFloat Float.NaN, drop_chars 3 s)
      else if starts_with "Infinity" s
      then inr (JFloat (Float.Infinity false), drop_chars 8 s)
      else if starts_with "-Infinity" s
      then inr (JFloat (Float.Infinity true), drop_chars 9 s)
      else scan_number s
  end

(** The items of an array up to its closing bracket. *)
with parse_items (fuel depth : nat) (s : string) {struct fuel}
  : outcome (list json * string) :=
  match fuel with
  | O => inl Unmodelled
  | S fuel' =>
      match scan_once fuel' depth s with
      | inl e => inl e
      | inr (j, s1) =>
          let s2 := skip_whitespace s1 in
          if next_is "]" s2 then inr ([j], drop_chars 1 s2)
          else if next_is "," s2 then
            match
              parse_items fuel' depth (skip_whitespace (drop_chars 1 s2))
            with
            | inl e => inl e
            | inr (js, rest) => inr (j :: js, rest)
            end
          else inl JSONDecodeError
      end
  end

(** The members of an object up to its closing brace. *)
with parse_members (fuel depth : nat) (s : string) {struct fuel}
  : outcome (list (text * json) * string) :=
  match fuel with
  | O => inl Unmodelled
  | S fuel' =>
      if next_is quote s then
        match scanstring (drop_chars 1 s) with
        | inl e => inl e
        | inr (key, s1) =>
            let s2 := skip_whitespace s1 in
            if next_is ":" s2 then
              match
                scan_once fuel' depth (skip_whitespace (drop_chars 1 s2))
              with
              | inl e => inl e
              | inr (j, s3) =>
                  let s4 := skip_whitespace s3 in
                  if next_is "}" s4 then inr ([(key, j)], drop_chars 1 s4)
                  else if next_is "," s4 then
                    match
                      parse_members fuel' depth
                        (skip_whitespace (drop_chars 1 s4))
                    with
                    | inl e => inl e
                    | inr (members, rest) => inr ((key, j) :: members, rest)
                    end
                  else inl JSONDecodeError
              end
            else inl JSONDecodeError
        end
      else inl JSONDecodeError
  end.

End Codec.

(** The value of a document: an array is a list, an object is a dict built
    from its members in their order. *)
Fixpoint of_json (j : json) : data :=
  match j with
  | JNull => PNone
  | JBool b => PBool b
  | JInt n => PInt n
  | JFloat f => PFloat f
  | JStr s => PStr s
  | JArr js => PList (map of_json js)
  | JObj members =>
      PDict (of_pairs (map (fun kv : text * json =>
                              (fst kv, of_json (snd kv))) members))
  end.

(** [JSONDecoder().decode(s)] for a text of ASCII characters: one value,
    white space around it, and nothing else. *)
Definition decode (env : interpreter) (s : string) : outcome data :=
  match
    scan_once env (S (2 * String.length s)) (decoder_depth env)
      (skip_whitespace s)
  with
  | inl e => inl e
  | inr (j, rest) =>
      match skip_whitespace rest with
      | EmptyString => inr (of_json j)
      | _ => inl JSONDecodeError
      end
  end.

(** Bytes that are ASCII and not NUL. *)
Fixpoint is_plain (s : string) : bool :=
  match s with
  | EmptyString => true
  | String c s' =>
      ((0 <? N_of_ascii c) && (N_of_ascii c <? 128))%N && is_plain s'
  end.

(** [json.loads(s)]: a [str] is decoded as it is; [bytes] are first turned
    into a [str], in the encoding their first bytes show, which is UTF-8
    when none of them is NUL.  A text that is not ASCII is not modelled,
    nor are bytes that are not plain. *)
Definition loads (env : interpreter) (s : data) : outcome data :=
  match s with
  | PStr t =>
      if is_ascii_text t then decode env (chars_of t) else inl Unmodelled
  | PBytes b => if is_plain b then decode env b else inl Unmodelled
  | _ => inl TypeError
  end.

(** What a value is when it comes back from its text: a tuple has become
    a list, a dict is built anew from its entries, and in a string every
    high surrogate that a low one follows has been joined with it. *)
Fixpoint decoded (d : data) : data :=
  match d with
  | PTuple ds | PList ds => PList (map decoded ds)
  | PDict kvs =>
      PDict (of_pairs (map (fun kv : text * data =>
                              (join_surrogates (fst kv), decoded (snd kv)))
                         kvs))
  | PStr s => PStr (join_surrogates s)
  | _ => d
  end.




(** The depth of nesting of a value: the lists, tuples and dicts on its
    longest branch. *)
Fixpoint nesting (d : data) : nat :=
  match d with
  | PTuple ds | PList ds => S (fold_right (fun d n => Nat.max (nesting d) n) 0 ds)
  | PDict kvs =>
      S (fold_right (fun kv n => Nat.max (nesting (snd kv)) n) 0 kvs)
  | _ => 0
  end.


(** *** Notions of the round trip *)

(** What may follow a value in a text: nothing, a comma, or a closing
    bracket or brace. *)
Definition closed (rest : string) : Prop :=
  rest = "" \/
  exists c r, rest = String c r /\ (c = "," \/ c = "]" \/ c = "}")%char.

(** A numeral of the kind [Pos.to_uint] makes: its first digit is not 0. *)
Definition headed (u : Decimal.uint) : Prop :=
  match u with
  | Decimal.Nil | Decimal.D0 _ => False
  | _ => True
  end.

(** The first character of a value in a text. *)
Definition starts_value (c : ascii) : bool :=
  is_digit c || Ascii.eqb c "-" || Ascii.eqb c quote || Ascii.eqb c "["
  || Ascii.eqb c "{" || Ascii.eqb c "n" || Ascii.eqb c "t" || Ascii.eqb c "f"
  || Ascii.eqb c "N" || Ascii.eqb c "I".

(** Induction on documents, with the property known of the parts. *)
Section JsonInduction.

Variable P : json -> Prop.

Hypothesis case_null : P JNull.
Hypothesis case_bool : forall b, P (JBool b).
Hypothesis case_int : forall n, P (JInt n).
Hypothesis case_float : forall f, P (JFloat f).
Hypothesis case_str : forall s, P (JStr s).
Hypothesis case_arr : forall js, Forall P js -> P (JArr js).
Hypothesis case_obj :
  forall members, Forall (fun kv => P (snd kv)) members -> P (JObj members).

Fixpoint json_induction (j : json) : P j :=
  match j with
  | JNull => case_null
  | JBool b => case_bool b
  | JInt n => case_int n
  | JFloat f => case_float f
  | JStr s => case_str s
  | JArr js =>
      case_arr js
        ((fix all (js : list json) : Forall P js :=
            match js with
            | [] => @List.Forall_nil _ P
            | j :: js' =>
                @List.Forall_cons _ P j js' (json_induction j) (all js')
            end) js)
  | JObj members =>
      case_obj members
        ((fix all (ms : list (text * json))
            : Forall (fun kv => P (snd kv)) ms :=
            match ms with
            | [] => @List.Forall_nil _ _
            | kv :: ms' =>
                @List.Forall_cons _ (fun kv => P (snd kv)) kv ms'
                  (json_induction (snd kv)) (all ms')
            end) members)
  end.

End JsonInduction.

(** Induction on values, with the property known of the parts. *)
Section DataInduction.

Variable P : data -> Prop.

Hypothesis case_none : P PNone.
Hypothesis case_bool : forall b, P (PBool b).
Hypothesis case_int : forall n, P (PInt n).
Hypothesis case_float : forall f, P (PFloat f).
Hypothesis case_str : forall s, P (PStr s).
Hypothesis case_bytes : forall s, P (PBytes s).
Hypothesis case_tuple : forall ds, Forall P ds -> P (PTuple ds).
Hypothesis case_list : forall ds, Forall P ds -> P (PList ds).
Hypothesis case_dict :
  forall kvs, Forall (fun kv => P (snd kv)) kvs -> P (PDict kvs).

Fixpoint data_induction (d : data) : P d :=
  let all :=
    fix all (ds : list data) : Forall P ds :=
      match ds with
      | [] => @List.Forall_nil _ P
      | d :: ds' => @List.Forall_cons _ P d ds' (data_induction d) (all ds')
      end in
  match d with
  | PNone => case_none
  | PBool b => case_bool b
  | PInt n => case_int n
  | PFloat f => case_float f
  | PStr s => case_str s
  | PBytes s => case_bytes s
  | PTuple ds => case_tuple ds (all ds)
  | PList ds => case_list ds (all ds)
  | PDict kvs =>
      case_dict kvs
        ((fix all (kvs : list (text * data))
            : Forall (fun kv => P (snd kv)) kvs :=
            match kvs with
            | [] => @List.Forall_nil _ _
            | kv :: kvs' =>
                @List.Forall_cons _ (fun kv => P (snd kv)) kv kvs'
                  (data_induction (snd kv)) (all kvs')
            end) kvs)
  end.

End DataInduction.

(** The fuel that reads a document back. *)
Fixpoint weight (j : json) : nat :=
  match j with
  | JArr js => S (fold_right (fun j n => S (weight j) + n) 0 js)
  | JObj members =>
      S (fold_right (fun kv n => S (weight (snd kv)) + n) 0 members)
  | _ => 1
  end.

(** The depth of nesting of a document. *)
Fixpoint height (j : json) : nat :=
  match j with
  | JArr js => S (fold_right (fun j n => Nat.max (height j) n) 0 js)
  | JObj members =>
      S (fold_right (fun kv n => Nat.max (height (snd kv)) n) 0 members)
  | _ => 0
  end.

(** A document as it is read back from its text: the surrogates of its
    strings are joined. *)
Fixpoint joined (j : json) : json :=
  match j with
  | JStr s => JStr (join_surrogates s)
  | JArr js => JArr (map joined js)
  | JObj members =>
      JObj (map (fun kv : text * json =>
                   (join_surrogates (fst kv), joined (snd kv))) members)
  | _ => j
  end.

(** The documents [to_json] makes: the integers are within the limit on
    digits, the floats are floats, the strings are made of code points. *)
Fixpoint written (env : interpreter) (j : json) : Prop :=
  match j with
  | JNull | JBool _ => True
  | JInt n => Int.exceeds env (Int.digits n) = false
  | JFloat f => is_float env f = true
  | JStr s => is_text s = true
  | JArr js => fold_right (fun j P => written env j /\ P) True js
  | JObj members =>
      fold_right (fun kv P => is_text (fst kv) = true /\
                              written env (snd kv) /\ P) True members
  end.

(** A member of an object, as it is written. *)
Definition render_member (kv : text * json) : string :=
  render_string (fst kv) +:+ ": " +:+ render (snd kv).

(** The property of a document that the round trip is proved by. *)
Definition reads_back (env : interpreter) (j : json) : Prop :=
  forall fuel depth rest,
    weight j <= fuel -> height j <= depth -> closed rest -> written env j ->
    scan_once env fuel depth (render j +:+ rest) = inr (joined j, rest).

(** A member of an object, as it is read back. *)
Definition joined_member (kv : text * json) : text * json :=
  (join_surrogates (fst kv), joined (snd kv)).

(** What [scanstring] does after the escape of a high surrogate. *)
Definition after_high (n : N) (t : string) : outcome (text * string) :=
  match t with
  | String b (String u (String d1 (String d2 (String d3
      (String d4 ((String _ _) as s4)))))) =>
      if Ascii.eqb b backslash && Ascii.eqb u "u" then
        match hex4 d1 d2 d3 d4 with
        | None => inl JSONDecodeError
        | Some m =>
            if is_low m then push (Text.join n m) (scanstring s4)
            else push n (scanstring t)
        end
      else push n (scanstring t)
  | _ => push n (scanstring t)
  end.

(** A text that does not start with a digit. *)
Definition no_digit (s : string) : Prop := scan_digits s = (Decimal.Nil, s).

(** The parts of the text of a literal after its sign. *)
Definition fraction_text (l : Float.literal) : string :=
  match Float.fraction l with
  | Some u => "." +:+ NilEmpty.string_of_uint u
  | None => ""
  end.

Definition exponent_text (l : Float.literal) : string :=
  match Float.exponent l with
  | Some (minus, u) =>
      "e" +:+ (if minus : bool then "-" else "+") +:+ NilEmpty.string_of_uint u
  | None => ""
  end.

Section Notions.

Variable env : interpreter.

(** What [scan_number] does once the sign is read. *)
Definition number_after (minus : bool) (s1 : string)
  : outcome (json * string) :=
  match scan_integer s1 with
  | None => inl JSONDecodeError
  | Some (u, rest) =>
      let (fraction, rest1) := scan_fraction rest in
      let (exponent, rest2) := scan_exponent rest1 in
      match fraction, exponent with
      | None, None =>
          if Int.exceeds env (Decimal.nb_digits u)
          then inl (ValueError Int.limit_message)
          else
            inr (JInt (Z.of_int (if minus : bool then Decimal.Neg u
                                 else Decimal.Pos u)),
                 rest)
      | _, _ =>
          inr (JFloat
                 (float_of_literal env (Float.Literal minus u fraction exponent)),
               rest2)
      end
  end.

(** What [to_json] makes is written within the limits, is as deep as the
    value, and is the value as the decoder gives it back. *)
Definition faithful (d : data) : Prop :=
  forall depth j,
    to_json env depth d = inr j ->
    written env j /\ height j = nesting d /\ nesting d <= depth /\
    of_json (joined j) = decoded d.

End Notions.

End Json.

(** ** The Redis service and its client, [redis.StrictRedis]

    The key-value service and its client library are outside the
    repository; they are modelled as Redis and redis-py document them.
    The service holds, under a key, a string or a list of strings; the
    commands are the ones the back end sends.  The state is the key space
    of the database the connection selects; reaching the service is taken
    for granted. *)

Module Redis.

(** What the service holds under a key. *)
Inductive entry : Type :=
| RString (b : string)
| RList (items : list string).

Abbreviation keyspace := (gmap string entry).

(** The module [redis], as far as the back end depends on it: what the
    constructor of the client raises for the keywords it is given, if it
    raises ([TypeError] for a keyword it does not know). *)
Record library : Type := Library { refuses : dict val -> option exn }.

(** The client: it keeps the keyword arguments it was built with, among
    them the number of the database, [db]; [decode_responses] is whether
    it was told to decode what the service answers. *)
Record StrictRedis : Type := Client {
  connection_kwargs : dict val;
  decode_responses : bool
}.

(** [bool(v)]; the truth of a list or of a dict is left out. *)
Definition truth (v : val) : outcome bool :=
  match v with
  | VNone => inr false
  | VBool b => inr b
  | VInt n => inr (negb (n =? 0)%Z)
  | VStr s | VBytes s => inr (negb (String.eqb s ""))
  | VTuple vs => inr (match vs with [] => false | _ => true end)
  | VRef _ => inl Unmodelled
  end.

(** The keywords that change how the client encodes and decodes, other
    than [decode_responses]: a client that is given one of them is not
    modelled. *)
Definition beyond : list string :=
  ["encoding"; "encoding_errors"; "charset"; "errors"; "connection_pool"].

(** [redis.StrictRedis] called with these keywords; no connection is made
    yet. *)
Definition construct (lib : library) (kwargs : dict val)
  : outcome StrictRedis :=
  match refuses lib kwargs with
  | Some e => inl e
  | None =>
      if existsb (fun k => Dict.contains k kwargs) beyond then inl Unmodelled
      else
        match Dict.lookup "decode_responses" kwargs with
        | None => inr (Client kwargs false)
        | Some v =>
            match truth v with
            | inl e => inl e
            | inr b => inr (Client kwargs b)
            end
        end
  end.

(** [redis.StrictRedis] called with the entries of the dict [config] as
    keywords, as they are at the time of the call. *)
Definition connect (lib : library) (config : val) : M heap StrictRedis :=
  fun h =>
    match Heap.dict_of h config with
    | Some d => (construct lib d, h)
    | None => (inl TypeError, h)
    end.

(** What the client returns for a string the service answers: the bytes,
    or the [str] they are in UTF-8 when it decodes. *)
Definition reply (client : StrictRedis) (b : string) : outcome data :=
  if decode_responses client then
    match Utf8.decode b with
    | inl e => inl e
    | inr t => inr (PStr t)
    end
  else inr (PBytes b).

Section Commands.

Variable env : interpreter.

(** Whether a key matches a pattern of the [KEYS] command; the pattern
    language is the service's. *)
Variable glob : string -> string -> bool.

(** The bytes the client sends for an argument: bytes as they are, text in
    UTF-8, an integer or a float as [repr] writes it; it refuses anything
    else. *)
Definition encode (value : data) : outcome string :=
  match value with
  | PBytes b => inr b
  | PStr s => Utf8.encode s
  | PInt n => Int.repr env n
  | PFloat f => if is_float env f then inr (Float.repr f) else inl Unmodelled
  | PNone | PBool _ | PTuple _ | PList _ | PDict _ => inl DataError
  end.

(** [SET key value]: whatever the key held is replaced. *)
Definition set (client : StrictRedis) (key value : data) : M keyspace data :=
  do k <- lift (encode key);
  do b <- lift (encode value);
  do ks <- Py.get;
  put (<[k := RString b]> ks) ;;
  ret (PBool true).

(** [GET key]: the string under the key, [None] when there is none. *)
Definition get (client : StrictRedis) (key : data) : M keyspace data :=
  do k <- lift (encode key);
  do ks <- Py.get;
  match ks !! k with
  | None => ret PNone
  | Some (RString b) => lift (reply client b)
  | Some (RList _) => raise ResponseError
  end.

(** [RPUSH key value]: the value goes to the right end of the list under
    the key, which is created when the key is free; the new length is
    returned. *)
Definition rpush (client : StrictRedis) (key value : data)
  : M keyspace data :=
  do k <- lift (encode key);
  do b <- lift (encode value);
  do ks <- Py.get;
  match ks !! k with
  | None =>
      put (<[k := RList [b]]> ks) ;;
      ret (PInt 1)
  | Some (RList items) =>
      put (<[k := RList (items ++ [b])]> ks) ;;
      ret (PInt (Z.of_nat (length (items ++ [b]))))
  | Some (RString _) => raise ResponseError
  end.

(** The items of a list from index [start] to index [stop], both
    included; a negative index counts from the end. *)
Definition range (items : list string) (start stop : Z) : list string :=
  let len := Z.of_nat (length items) in
  let start := if (start <? 0)%Z then (len + start)%Z else start in
  let stop := if (stop <? 0)%Z then (len + stop)%Z else stop in
  let start := if (start <? 0)%Z then 0%Z else start in
  if ((stop <? start) || (len <=? start))%Z then []
  else
    let stop := if (len <=? stop)%Z then (len - 1)%Z else stop in
    take (Z.to_nat (stop - start + 1)) (drop (Z.to_nat start) items).

(** [LRANGE key start stop]: no list under the key is an empty list. *)
Definition lrange (client : StrictRedis) (key : data) (start stop : Z)
  : M keyspace (list data) :=
  do k <- lift (encode key);
  do ks <- Py.get;
  match ks !! k with
  | None => ret []
  | Some (RList items) =>
      lift (Json.traverse (reply client) (range items start stop))
  | Some (RString _) => raise ResponseError
  end.

(** [KEYS pattern]: the keys that match, in no particular order. *)
Definition keys (client : StrictRedis) (pattern : data)
  : M keyspace (list data) :=
  do p <- lift (encode pattern);
  do ks <- Py.get;
  lift (Json.traverse (reply client)
          (filter (fun key => glob p key = true) (map fst (map_to_list ks)))).

(** [DEL key]: the number of keys removed is returned. *)
Definition delete (client : StrictRedis) (key : data) : M keyspace data :=
  do k <- lift (encode key);
  do ks <- Py.get;
  match ks !! k with
  | None => ret (PInt 0)
  | Some _ =>
      put (base.delete k ks) ;;
      ret (PInt 1)
  end.

End Commands.

End Redis.

(** ** [class RedisStorage]

    The methods run on the key space the client of the instance is
    connected to.  A key is given as bytes. *)

Module RedisStorage.

Import Redis.

Record t : Type := Build { name : string; storage : StrictRedis }.

(** [__init__(self, config)]; [redis] is the module-level name: the
    client library, or [None] when its import failed. *)
Definition init (redis : option library) (config : val) : M heap t :=
  match redis with
  | None => raise (ImportError "redis-py is required to use Redis as storage.")
  | Some lib =>
      do client <- Redis.connect lib config;
      ret {| name := "redis"; storage := client |}
  end.

Section Methods.

Variable env : interpreter.

Variable glob : string -> string -> bool.

Variable self : t.

(** [keys(self, pattern="*")]. *)
Definition keys (pattern : string) : M keyspace (list data) :=
  Redis.keys env glob (storage self) (PBytes pattern).

(** [set_val(self, key, val)]. *)
Definition set_val (key : string) (v : data) : M keyspace unit :=
  Redis.set env (storage self) (PBytes key) v ;;
  ret tt.

(** [get_val(self, key)]. *)
Definition get_val (key : string) : M keyspace data :=
  Redis.get env (storage self) (PBytes key).

(** [append_val(self, key, val)]. *)
Definition append_val (key : string) (v : data) : M keyspace unit :=
  do s <- lift (Json.dumps env v);
  Redis.rpush env (storage self) (PBytes key) (PStr (text_of s)) ;;
  ret tt.

(** [get_list(self, key)]. *)
Definition get_list (key : string) : M keyspace (list data) :=
  do items <- Redis.lrange env (storage self) (PBytes key) 0 (-1);
  for_each (fun item => lift (Json.loads env item)) items.

(** [clear(self)]: the client's [keys()] asks for the pattern ["*"], and
    each key goes to [delete] as [keys()] returned it. *)
Definition clear : M keyspace unit :=
  do all <- Redis.keys env glob (storage self) (PStr (text_of "*"));
  for_each (fun key => Redis.delete env (storage self) key) all ;;
  ret tt.

(** A call of a method. *)
Inductive call : Type :=
| Keys (pattern : string)
| SetVal (key : string) (v : data)
| GetVal (key : string)
| AppendVal (key : string) (v : data)
| GetList (key : string)
| Clear.

(** The key space a call leaves, whether it returns or raises. *)
Definition step (ks : keyspace) (c : call) : keyspace :=
  match c with
  | Keys pattern => exec (keys pattern) ks
  | SetVal key v => exec (set_val key v) ks
  | GetVal key => exec (get_val key) ks
  | AppendVal key v => exec (append_val key v) ks
  | GetList key => exec (get_list key) ks
  | Clear => exec clear ks
  end.

(** The key space a sequence of calls leaves. *)
Definition run (ks : keyspace) (cs : list call) : keyspace :=
  fold_left step cs ks.

(** Whether a call sets a scalar at the key. *)
Definition sets (key : string) (c : call) : bool :=
  match c with
  | SetVal k _ => String.eqb key k
  | _ => false
  end.

(** Whether a call writes at the key. *)
Definition writes (key : string) (c : call) : bool :=
  match c with
  | SetVal k _ | AppendVal k _ => String.eqb key k
  | _ => false
  end.

Definition is_clear (c : call) : bool :=
  match c with
  | Clear => true
  | _ => false
  end.


(** What [get_list] makes of the items of a list: the client returns each
    as a reply, then [json.loads] reads each. *)
Definition read (items : list string) : outcome (list data) :=
  match Json.traverse (reply (storage self)) items with
  | inl e => inl e
  | inr replies => Json.traverse (Json.loads env) replies
  end.

End Methods.

End RedisStorage.

(** ** [def storage(storage_config, index)] *)

(** The back end the factory returns. *)
Inductive backend : Type :=
| InMemory (s : InMemoryStorage.t)
| Networked (s : RedisStorage.t).

Definition storage (redis : option Redis.library) (storage_config index : val)
  : M heap backend :=
  do has_dict <- Heap.contains "dict" storage_config;
  if has_dict : bool then
    do config <- Heap.getitem storage_config "dict";
    ret (InMemory (InMemoryStorage.init config))
  else
    do has_redis <- Heap.contains "redis" storage_config;
    if has_redis : bool then
      do config <- Heap.getitem storage_config "redis";
      Heap.setitem config "db" index ;;
      do config <- Heap.getitem storage_config "redis";
      do s <- RedisStorage.init redis config;
      ret (Networked s)
    else
      raise (ValueError "Only in-memory dictionary and Redis are supported.").

(** ** Examples *)

(** Two entries, [{"id": 42}] and [{"id": 7}]. *)
Definition entry_42 : data := PDict [(text_of "id", PInt 42)].
Definition entry_7 : data := PDict [(text_of "id", PInt 7)].



(** A pattern matcher for the examples: ["*"] matches every key, any other
    pattern matches itself. *)
Definition glob_star (pattern key : string) : bool :=
  String.eqb pattern "*" || String.eqb pattern key.

(** A descriptor that names both back ends: the dict at location 0, with
    the parameters of each at locations 1 and 2. *)
Definition both_directives : heap :=
  [ODict [("dict", VRef 1); ("redis", VRef 2)]; ODict []; ODict []].

(** A descriptor that names the Redis back end, with its parameters at
    location 1. *)
Definition redis_directive : heap :=
  [ODict [("redis", VRef 1)]; ODict [("host", VStr "localhost")]].

(** An interpreter for the examples, with the limits of CPython 3.11 and
    its defaults where the back end is called from the top of a script:
    the encoder writes 992 levels of nesting, the decoder reads 991, an
    integer has 4300 digits at most.  A literal stands for the float that
    is written that way, which is so of the literals that [repr] gives. *)
Definition cpython : interpreter :=
  {| encoder_depth := 992;
     decoder_depth := 991;
     int_max_str_digits := 4300;
     float_of_literal := Float.Finite |}.

(** The keywords of [redis.StrictRedis] in redis-py 3.5. *)
Definition keywords : list string :=
  ["host"; "port"; "db"; "password"; "socket_timeout";
   "socket_connect_timeout"; "socket_keepalive"; "socket_keepalive_options";
   "connection_pool"; "unix_socket_path"; "encoding"; "encoding_errors";
   "charset"; "errors"; "decode_responses"; "retry_on_timeout"; "ssl";
   "ssl_keyfile"; "ssl_certfile"; "ssl_cert_reqs"; "ssl_ca_certs";
   "ssl_check_hostname"; "max_connections"; "single_connection_client";
   "health_check_interval"; "client_name"; "username"].

(** A client library for the examples: its constructor raises [TypeError]
    for a keyword that is not one of these. *)
Definition redis_py : Redis.library :=
  {| Redis.refuses := fun kwargs =>
       if forallb (fun k => existsb (String.eqb k) keywords) (Dict.keys kwargs)
       then None else Some TypeError |}.

(** A back end whose client returns bytes, and one whose client decodes
    what the service answers. *)
Definition plain_backend : RedisStorage.t :=
  {| RedisStorage.name := "redis";
     RedisStorage.storage := Redis.Client [("db", VInt 0)] false |}.



(** ** Further notions *)

(** A world in which one list has been appended to: the key ["h1"] holds
    the list [[42]]. *)
Definition one_list : InMemoryStorage.world :=
  InMemoryStorage.run (InMemoryStorage.fresh [] VNone)
    [InMemoryStorage.AppendVal "h1" (VInt 42)].

(** The values of the pairs of a key, in order. *)
Fixpoint select {V} (key : string) (pairs : list (string * V)) : list V :=
  match pairs with
  | [] => []
  | (k, v) :: pairs' =>
      if String.eqb key k then v :: select key pairs' else select key pairs'
  end.

(** The call [append_val(k, e)] of the in-memory back end, for a pair. *)
Definition appending (ke : string * val) : InMemoryStorage.call :=
  InMemoryStorage.AppendVal (fst ke) (snd ke).


(** The state of an in-memory back end that was only appended to: every
    key holds a list of its own with the entries of the key, in order. *)
Definition kept_apart (kes : list (string * val))
    (w : InMemoryStorage.world) : Prop :=
  (forall key,
     match
       Dict.lookup key (InMemoryStorage.storage (InMemoryStorage.self w))
     with
     | None => select key kes = []
     | Some v =>
         exists r, v = VRef r /\
                   InMemoryStorage.objects w !! r
                   = Some (OList (select key kes))
     end) /\
  (forall k1 k2 r,
     Dict.lookup k1 (InMemoryStorage.storage (InMemoryStorage.self w))
     = Some (VRef r) ->
     Dict.lookup k2 (InMemoryStorage.storage (InMemoryStorage.self w))
     = Some (VRef r) -> k1 = k2).






(** What the factory returns once it has written [db]. *)
Definition built (redis : option Redis.library) (kwargs : dict val)
  : outcome backend :=
  match redis with
  | None => inl (ImportError "redis-py is required to use Redis as storage.")
  | Some lib =>
      match Redis.construct lib kwargs with
      | inl e => inl e
      | inr client =>
          inr (Networked {| RedisStorage.name := "redis";
                            RedisStorage.storage := client |})
      end
  end.
(** * Properties *)

(** ** Facts on dicts *)

Module DictFacts.

Lemma lookup_set_eq {V} (key : string) (v : V) (d : dict V) :
  Dict.lookup key (Dict.set key v d) = Some v.
Proof.
  induction d as [|[k w] d IH]; simpl.
  - now rewrite String.eqb_refl.
  - destruct (String.eqb key k) eqn:E; simpl; rewrite E; auto.
Qed.

Lemma lookup_set_ne {V} (key key' : string) (v : V) (d : dict V) :
  key <> key' ->
  Dict.lookup key' (Dict.set key v d) = Dict.lookup key' d.
Proof.
  intros Hne. induction d as [|[k w] d IH]; simpl.
  - destruct (String.eqb key' key) eqn:E; auto.
    apply String.eqb_eq in E. congruence.
  - destruct (String.eqb key k) eqn:E; simpl.
    + apply String.eqb_eq in E. subst k.
      destruct (String.eqb key' key) eqn:E'; auto.
      apply String.eqb_eq in E'. congruence.
    + now rewrite IH.
Qed.

Lemma contains_lookup {V} (key : string) (d : dict V) :
  Dict.contains key d = true <-> is_Some (Dict.lookup key d).
Proof.
  induction d as [|[k w] d IH]; simpl.
  - split; [discriminate | intros [? ?]; discriminate].
  - destruct (String.eqb key k); [|exact IH].
    split; eauto.
Qed.

Lemma contains_keys {V} (key : string) (d : dict V) :
  Dict.contains key d = true <-> key ∈ Dict.keys d.
Proof.
  induction d as [|[k w] d IH]; simpl.
  - split; [discriminate | intros H; inversion H].
  - rewrite elem_of_cons. destruct (String.eqb key k) eqn:E.
    + apply String.eqb_eq in E. subst. tauto.
    + apply String.eqb_neq in E. rewrite IH. tauto.
Qed.

Lemma lookup_None_keys {V} (key : string) (d : dict V) :
  Dict.lookup key d = None <-> key ∉ Dict.keys d.
Proof.
  rewrite <- contains_keys, contains_lookup.
  destruct (Dict.lookup key d) as [v|].
  - split; [discriminate|]. intros H. exfalso. apply H. eauto.
  - split; [|reflexivity]. intros _ [? ?]. discriminate.
Qed.

Lemma set_fresh {V} (key : string) (v : V) (d : dict V) :
  Dict.lookup key d = None -> Dict.set key v d = d ++ [(key, v)].
Proof.
  induction d as [|[k w] d IH]; simpl; auto.
  destruct (String.eqb key k); [discriminate|].
  intros H. now rewrite IH.
Qed.

(** The pairs of a dict, whose keys are distinct, make the same dict. *)
Lemma of_pairs_NoDup {V} (d : dict V) :
  NoDup (Dict.keys d) -> Dict.of_pairs d = d.
Proof.
  unfold Dict.of_pairs.
  enough (G : forall acc, NoDup (Dict.keys (acc ++ d)) ->
            fold_left (fun d kv => Dict.set (fst kv) (snd kv) d) d acc = acc ++ d).
  { intros H. apply (G []). exact H. }
  induction d as [|[k w] d IH]; intros acc Hnd; simpl.
  - now rewrite app_nil_r.
  - rewrite set_fresh.
    + rewrite IH; rewrite <- app_assoc; auto.
    + apply lookup_None_keys. unfold Dict.keys in *.
      rewrite map_app in Hnd. simpl in Hnd.
      apply NoDup_app in Hnd as (_ & Hnd & _).
      intros Hin. apply (Hnd k Hin). now left.
Qed.

End DictFacts.

(** ** Facts on the monad *)

Module MonadFacts.


Lemma run_inl {S A} (c : M S A) (s : S) (e : exn) :
  fst (c s) = inl e -> c s = (inl e, snd (c s)).
Proof. destruct (c s); simpl. now intros ->. Qed.


Lemma bind_inl {S A B} (c : M S A) (k : A -> M S B) (s s' : S) (e : exn) :
  c s = (inl e, s') -> bind c k s = (inl e, s').
Proof. unfold bind. now intros ->. Qed.


End MonadFacts.

(** ** Facts on the in-memory back end *)

Module InMemoryFacts.

Import InMemoryStorage.

Lemma lookup_alloc (h : heap) (o : obj) : (h ++ [o]) !! length h = Some o.
Proof.
  rewrite lookup_app_r by lia. now rewrite Nat.sub_diag.
Qed.

Lemma lookup_alloc_old (h : heap) (o o' : obj) (r : loc) :
  h !! r = Some o -> (h ++ [o']) !! r = Some o.
Proof.
  intros H. rewrite lookup_app_l; auto. eapply lookup_lt_Some; eauto.
Qed.

Lemma append_val_absent key v w :
  absent key w ->
  eval (append_val key v) w = inr tt /\
  holds_list key (exec (append_val key v) w) [v].
Proof.
  destruct w as [h [n d]]. unfold absent, eval, exec. simpl. intros Hd.
  unfold append_val, setdefault, bind, on_heap, get_storage, set_storage,
    Heap.alloc, Heap.append, ret. simpl. rewrite Hd. simpl.
  rewrite lookup_alloc. simpl. split; [reflexivity|].
  exists (length h). simpl. split.
  - apply DictFacts.lookup_set_eq.
  - apply list_lookup_insert_eq. rewrite length_app. simpl. lia.
Qed.


Lemma get_list_list key w xs :
  holds_list key w xs ->
  exists v, eval (get_list key) w = inr v /\
            Heap.list_of (objects (exec (get_list key) w)) v = Some xs.
Proof.
  destruct w as [h [n d]]. unfold holds_list, eval, exec. simpl.
  intros (r & Hd & Hr).
  unfold get_list, bind, on_heap, get_storage, Heap.alloc, ret. simpl.
  rewrite Hd. simpl. exists (VRef r). split; [reflexivity|].
  simpl. now rewrite (lookup_alloc_old _ _ _ _ Hr).
Qed.

Lemma get_list_absent key w :
  absent key w ->
  exists v, eval (get_list key) w = inr v /\
            Heap.list_of (objects (exec (get_list key) w)) v = Some [].
Proof.
  destruct w as [h [n d]]. unfold absent, eval, exec. simpl. intros Hd.
  unfold get_list, bind, on_heap, get_storage, Heap.alloc, ret. simpl.
  rewrite Hd. simpl. exists (VRef (length h)). split; [reflexivity|].
  simpl. now rewrite lookup_alloc.
Qed.

Lemma listing_spec key w xs :
  listing key w = Some xs <->
  exists v, eval (get_list key) w = inr v /\
            Heap.list_of (objects (exec (get_list key) w)) v = Some xs.
Proof.
  unfold listing, eval, exec. destruct (get_list key w) as [[e|v] w']; simpl.
  - split; [discriminate|]. intros (v & H & _). discriminate.
  - split.
    + intros H. exists v. auto.
    + intros (v' & H & H'). now inversion H; subst.
Qed.

Lemma listing_list key w xs : holds_list key w xs -> listing key w = Some xs.
Proof. intros H. apply listing_spec. now apply get_list_list. Qed.

Lemma listing_absent key w : absent key w -> listing key w = Some [].
Proof. intros H. apply listing_spec. now apply get_list_absent. Qed.





(** A call that does not write the key leaves it free. *)
Lemma step_keeps_free key c w :
  writes key c = false -> absent key w -> absent key (step w c).
Proof.
  intros Hc Ha. destruct w as [h [n d]]. unfold absent in *. simpl in *.
  destruct c as [|k v|k|k v|k|]; simpl in *.
  - exact Ha.
  - rewrite DictFacts.lookup_set_ne; auto.
    intros ->. now rewrite String.eqb_refl in Hc.
  - unfold exec, get_val, bind, get_storage. simpl.
    destruct (Dict.lookup k d); auto.
  - apply String.eqb_neq in Hc.
    unfold exec, append_val, setdefault, bind, on_heap, get_storage,
      set_storage, Heap.alloc, Heap.append, ret. simpl.
    destruct (Dict.lookup k d) as [target|] eqn:Hk; simpl.
    + destruct target as [| | | | | |l]; simpl; auto.
      destruct ((h ++ [OList []]) !! l) as [[vs|dd]|]; simpl; auto.
    + rewrite lookup_alloc. simpl.
      rewrite DictFacts.lookup_set_ne; auto.
  - unfold exec, get_list, bind, on_heap, get_storage, Heap.alloc, ret.
    simpl. destruct (Dict.lookup k d); auto.
  - reflexivity.
Qed.

(** After calls that do not write the key, the key is free. *)
Lemma run_absent key h config cs :
  Forall (fun c => writes key c = false) cs ->
  absent key (run (fresh h config) cs).
Proof.
  unfold run. induction cs as [|c cs IH] using rev_ind; intros Hcs.
  - reflexivity.
  - apply Forall_app in Hcs as [Hcs Hc].
    apply Forall_cons in Hc as [Hc _].
    rewrite fold_left_app. simpl. apply step_keeps_free; auto.
Qed.

End InMemoryFacts.

(** ** Facts on the JSON codec *)

Module JsonFacts.

Import Json.

Lemma below_16 (P : N -> Prop) :
  P 0%N -> P 1%N -> P 2%N -> P 3%N -> P 4%N -> P 5%N -> P 6%N -> P 7%N ->
  P 8%N -> P 9%N -> P 10%N -> P 11%N -> P 12%N -> P 13%N -> P 14%N ->
  P 15%N -> forall k, (k < 16)%N -> P k.
Proof.
  intros. destruct k as [|p]; [assumption|].
  do 4 (try destruct p as [p|p|]); try lia; assumption.
Qed.

Lemma hex_value_digit (k : N) : (k < 16)%N -> hex_value (hex_digit k) = Some k.
Proof. revert k. apply below_16; reflexivity. Qed.

Lemma div_mod_16 (n : N) : (n = 16 * (n / 16) + n mod 16 /\ n mod 16 < 16)%N.
Proof.
  split; [apply N.div_mod; lia | apply N.mod_lt; lia].
Qed.

Lemma hex_digits (n : N) :
  (n < 65536)%N ->
  let a := (n / 16)%N in let b := (a / 16)%N in let c := (b / 16)%N in
  (n / 256 = b /\ n / 4096 = c /\ c < 16 /\
   ((c * 16 + b mod 16) * 16 + a mod 16) * 16 + n mod 16 = n)%N.
Proof.
  intros Hn a b c.
  assert (Hb : (n / 256 = b)%N).
  { unfold b, a. rewrite N.Div0.div_div. reflexivity. }
  assert (Hc : (n / 4096 = c)%N).
  { unfold c, b, a. rewrite !N.Div0.div_div. reflexivity. }
  destruct (div_mod_16 n) as [H1 H1']. destruct (div_mod_16 a) as [H2 H2'].
  destruct (div_mod_16 b) as [H3 H3']. fold a in H1. fold b in H2. fold c in H3.
  generalize dependent (n mod 16)%N. generalize dependent (a mod 16)%N.
  generalize dependent (b mod 16)%N. intros. lia.
Qed.

Lemma hex4_digits (n : N) :
  (n < 65536)%N ->
  hex4 (hex_digit (n / 4096)) (hex_digit ((n / 256) mod 16))
    (hex_digit ((n / 16) mod 16)) (hex_digit (n mod 16)) = Some n.
Proof.
  intros Hn. destruct (hex_digits n Hn) as (Hb & Hc & Hlt & Hsum).
  unfold hex4. rewrite Hb, Hc.
  rewrite !hex_value_digit; try (apply N.mod_lt; lia); try exact Hlt.
  now rewrite Hsum.
Qed.

Lemma append_nil (b : string) : "" +:+ b = b.
Proof. reflexivity. Qed.

Lemma append_cons (c : ascii) (a b : string) :
  String c a +:+ b = String c (a +:+ b).
Proof. reflexivity. Qed.

Ltac push_append := rewrite ?append_cons, ?append_nil.

Lemma append_assoc (a b c : string) : (a +:+ b) +:+ c = a +:+ (b +:+ c).
Proof.
  induction a as [|x a IH]; push_append; [reflexivity | now rewrite IH].
Qed.

Lemma append_empty (a : string) : a +:+ "" = a.
Proof.
  induction a as [|x a IH]; push_append; [reflexivity | now rewrite IH].
Qed.

Lemma length_append (a b : string) :
  String.length (a +:+ b) = String.length a + String.length b.
Proof.
  induction a as [|x a IH]; push_append; simpl; [reflexivity | now rewrite IH].
Qed.

Lemma scanstring_unicode (a b c d : ascii) (t : string) :
  scanstring
    (String backslash (String "u" (String a (String b (String c (String d t))))))
  = match hex4 a b c d with
    | None => inl JSONDecodeError
    | Some n => if is_high n then after_high n t else push n (scanstring t)
    end.
Proof. reflexivity. Qed.

Lemma scanstring_escape_unit (n : N) (t : string) :
  (n < 65536)%N ->
  scanstring (unicode_escape n t) =
  if is_high n then after_high n t else push n (scanstring t).
Proof.
  intros Hn. unfold unicode_escape. rewrite scanstring_unicode.
  now rewrite hex4_digits.
Qed.

(** Nothing is joined with a high surrogate when no escape [\u] follows. *)
Lemma after_high_other (n : N) (t : string) :
  (forall r, t <> String backslash (String "u" r)) ->
  after_high n t = push n (scanstring t).
Proof.
  intros Ht.
  destruct t as [|b [|u [|d1 [|d2 [|d3 [|d4 [|x r]]]]]]]; try reflexivity.
  unfold after_high.
  destruct (Ascii.eqb b backslash) eqn:Eb; [|reflexivity].
  destruct (Ascii.eqb u "u") eqn:Eu; [|reflexivity].
  apply Ascii.eqb_eq in Eb, Eu. subst. exfalso. eapply Ht. reflexivity.
Qed.

(** What follows the escape of a high surrogate when it is an escape. *)
Lemma after_high_unit (n m : N) (x : ascii) (r : string) :
  (m < 65536)%N ->
  after_high n (unicode_escape m (String x r)) =
  if is_low m then push (Text.join n m) (scanstring (String x r))
  else push n (scanstring (unicode_escape m (String x r))).
Proof.
  intros Hm. unfold unicode_escape at 1. unfold after_high.
  rewrite Ascii.eqb_refl. simpl andb. cbv iota.
  now rewrite hex4_digits.
Qed.

Lemma scanstring_escape_ascii (a : ascii) (t : string) :
  scanstring (escape_char (N_of_ascii a) +:+ t) =
  push (N_of_ascii a) (scanstring t).
Proof.
  destruct a as [[] [] [] [] [] [] [] []]; reflexivity.
Qed.

Lemma after_high_ascii (n : N) (a x : ascii) (r : string) :
  after_high n (escape_char (N_of_ascii a) +:+ String x r) =
  push n (scanstring (escape_char (N_of_ascii a) +:+ String x r)).
Proof.
  destruct a as [[] [] [] [] [] [] [] []];
    first [ reflexivity
          | apply after_high_other; intros r' H; discriminate H ].
Qed.

Lemma N_of_byte (n : N) : (n < 256)%N -> N_of_ascii (ascii_of_N n) = n.
Proof. apply N_ascii_embedding. Qed.

Lemma escape_char_wide (c : N) :
  (127 <= c)%N ->
  escape_char c =
  if (c <? 65536)%N then unicode_escape c ""
  else
    unicode_escape (55296 + (c - 65536) / 1024)
      (unicode_escape (56320 + (c - 65536) mod 1024) "").
Proof.
  intros Hc. unfold escape_char.
  repeat match goal with
         | |- context [(c =? ?k)%N] =>
             destruct (N.eqb_spec c k); [lia|]
         end.
  destruct (N.leb_spec 32 c); [|lia].
  destruct (N.leb_spec c 126); [lia|]. reflexivity.
Qed.

Lemma unicode_escape_append (n : N) (t r : string) :
  unicode_escape n t +:+ r = unicode_escape n (t +:+ r).
Proof. reflexivity. Qed.

(** The two surrogates a code point above 65535 is written as. *)
Lemma surrogates_of (c : N) :
  (65536 <= c)%N -> (c < 1114112)%N ->
  let high := (55296 + (c - 65536) / 1024)%N in
  let low := (56320 + (c - 65536) mod 1024)%N in
  is_high high = true /\ is_low low = true /\ (high < 65536)%N /\
  (low < 65536)%N /\ Text.join high low = c.
Proof.
  intros H1 H2 high low.
  assert (Hq : ((c - 65536) / 1024 < 1024)%N).
  { apply N.Div0.div_lt_upper_bound. lia. }
  assert (Hr : ((c - 65536) mod 1024 < 1024)%N).
  { apply N.mod_lt. lia. }
  assert (Hd : (c - 65536 = 1024 * ((c - 65536) / 1024)
                             + (c - 65536) mod 1024)%N).
  { apply N.div_mod. lia. }
  unfold high, low, is_high, is_low, Text.join.
  generalize dependent ((c - 65536) / 1024)%N.
  generalize dependent ((c - 65536) mod 1024)%N. intros r Hr q Hq Hd.
  repeat split; try lia.
  - apply andb_true_intro. split; apply N.leb_le; lia.
  - apply andb_true_intro. split; apply N.leb_le; lia.
Qed.

(** Reading the escape of a code point that is not a high surrogate gives
    the code point. *)
Lemma scanstring_escape_char (c : N) (x : ascii) (r : string) :
  is_code_point c = true -> is_high c = false ->
  scanstring (escape_char c +:+ String x r) = push c (scanstring (String x r)).
Proof.
  unfold is_code_point. intros Hc Hh. apply N.ltb_lt in Hc.
  destruct (N.ltb_spec c 256) as [Hlt|Hge].
  - pose proof (scanstring_escape_ascii (ascii_of_N c) (String x r)) as H.
    now rewrite (N_of_byte c Hlt) in H.
  - rewrite escape_char_wide by lia.
    destruct (N.ltb_spec c 65536) as [Hb|Hs].
    + rewrite unicode_escape_append, scanstring_escape_unit by exact Hb.
      now rewrite Hh.
    + destruct (surrogates_of c Hs Hc) as (H1 & H2 & H3 & H4 & H5).
      rewrite !unicode_escape_append. push_append.
      rewrite scanstring_escape_unit by exact H3. rewrite H1.
      rewrite after_high_unit by exact H4. now rewrite H2, H5.
Qed.

(** A high surrogate stays as it is when the code point after it is not a
    low surrogate. *)
Lemma after_high_escape_char (n c : N) (x : ascii) (r : string) :
  is_code_point c = true -> is_low c = false ->
  after_high n (escape_char c +:+ String x r) =
  push n (scanstring (escape_char c +:+ String x r)).
Proof.
  unfold is_code_point. intros Hc Hl. apply N.ltb_lt in Hc.
  destruct (N.ltb_spec c 256) as [Hlt|Hge].
  - pose proof (after_high_ascii n (ascii_of_N c) x r) as H.
    now rewrite (N_of_byte c Hlt) in H.
  - rewrite escape_char_wide by lia.
    destruct (N.ltb_spec c 65536) as [Hb|Hs].
    + rewrite unicode_escape_append. push_append.
      rewrite after_high_unit by exact Hb. now rewrite Hl.
    + destruct (surrogates_of c Hs Hc) as (H1 & H2 & H3 & H4 & H5).
      rewrite !unicode_escape_append. push_append.
      unfold unicode_escape at 2.
      rewrite after_high_unit by exact H3.
      replace (is_low (55296 + (c - 65536) / 1024)) with false; [reflexivity|].
      unfold is_high, is_low in *. apply andb_prop in H1 as [Ha Hb].
      apply N.leb_le in Ha, Hb. symmetry. apply andb_false_intro1.
      apply N.leb_gt. lia.
Qed.

Lemma escape_char_low (c : N) :
  is_low c = true -> escape_char c = unicode_escape c "" /\ (c < 65536)%N.
Proof.
  unfold is_low. intros H. apply andb_prop in H as [Ha Hb].
  apply N.leb_le in Ha, Hb. rewrite escape_char_wide by lia.
  destruct (N.ltb_spec c 65536); [auto | lia].
Qed.

Lemma escape_char_surrogate (c : N) :
  is_high c = true -> escape_char c = unicode_escape c "" /\ (c < 65536)%N.
Proof.
  unfold is_high. intros H. apply andb_prop in H as [Ha Hb].
  apply N.leb_le in Ha, Hb. rewrite escape_char_wide by lia.
  destruct (N.ltb_spec c 65536); [auto | lia].
Qed.

Lemma text_ind2 (P : text -> Prop) :
  P [] -> (forall c, P [c]) ->
  (forall c c' t, P (c' :: t) -> P t -> P (c :: c' :: t)) ->
  forall t, P t.
Proof.
  intros H0 H1 H2 t.
  enough (H : P t /\ forall c, P (c :: t)) by apply H.
  induction t as [|c' t [IH1 IH2]]; split; auto.
Qed.

Lemma escape_cons (c : N) (t : text) (r : string) :
  escape (c :: t) +:+ r = escape_char c +:+ (escape t +:+ r).
Proof. simpl. apply append_assoc. Qed.

Lemma escape_tail (t : text) (rest : string) :
  exists x r, escape t +:+ String quote rest = String x r.
Proof.
  destruct (escape t) as [|x r]; push_append; eauto.
Qed.

(** Reading an escaped string gives the string, its surrogates joined. *)
Lemma scanstring_escape (t : text) :
  is_text t = true ->
  forall rest,
    scanstring (escape t +:+ String quote rest) = inr (join_surrogates t, rest).
Proof.
  induction t as [|c|c c' t IH1 IH2] using text_ind2; intros Ht rest.
  - reflexivity.
  - simpl in Ht. apply andb_prop in Ht as [Hc _].
    rewrite escape_cons. simpl escape. push_append.
    destruct (is_high c) eqn:Hh.
    + destruct (escape_char_surrogate c Hh) as [-> Hlt].
      rewrite unicode_escape_append. push_append.
      rewrite scanstring_escape_unit by exact Hlt. rewrite Hh.
      rewrite after_high_other; [reflexivity|]. intros r H. discriminate H.
    + now rewrite scanstring_escape_char.
  - pose proof Ht as Ht'. simpl in Ht. apply andb_prop in Ht as [Hc Ht1].
    pose proof Ht1 as Ht1'. simpl in Ht1. apply andb_prop in Ht1 as [Hc' Ht2].
    specialize (IH1 Ht1' rest). specialize (IH2 Ht2 rest).
    rewrite escape_cons.
    destruct (escape_tail t rest) as (x & r & Hxr).
    destruct (is_high c) eqn:Hh.
    + destruct (escape_char_surrogate c Hh) as [-> Hlt].
      rewrite unicode_escape_append. push_append.
      rewrite scanstring_escape_unit by exact Hlt. rewrite Hh.
      rewrite escape_cons, Hxr.
      destruct (is_low c') eqn:Hl.
      * destruct (escape_char_low c' Hl) as [-> Hlt'].
        rewrite unicode_escape_append. push_append.
        rewrite after_high_unit by exact Hlt'. rewrite Hl.
        rewrite <- Hxr, IH2. simpl. now rewrite Hh, Hl.
      * rewrite after_high_escape_char by assumption.
        rewrite <- Hxr, <- escape_cons, IH1.
        change (join_surrogates (c :: c' :: t))
          with (if is_high c && is_low c'
                then Text.join c c' :: join_surrogates t
                else c :: join_surrogates (c' :: t)).
        now rewrite Hh, Hl.
    + destruct (escape_tail (c' :: t) rest) as (x' & r' & Hxr').
      rewrite Hxr', scanstring_escape_char by assumption.
      rewrite <- Hxr', IH1.
      change (join_surrogates (c :: c' :: t))
        with (if is_high c && is_low c'
              then Text.join c c' :: join_surrogates t
              else c :: join_surrogates (c' :: t)).
      now rewrite Hh.
Qed.

(** *** The text is plain ASCII *)

Lemma is_plain_append (a b : string) :
  is_plain (a +:+ b) = is_plain a && is_plain b.
Proof.
  induction a as [|x a IH]; push_append; simpl; [reflexivity|].
  now rewrite IH, andb_assoc.
Qed.

Lemma is_plain_hex_digit (k : N) (t : string) :
  is_plain (String (hex_digit k) t) = is_plain t.
Proof.
  unfold hex_digit. destruct k as [|p]; [reflexivity|].
  do 4 (try destruct p as [p|p|]); reflexivity.
Qed.

Lemma is_plain_unicode_escape (n : N) (t : string) :
  is_plain (unicode_escape n t) = is_plain t.
Proof.
  unfold unicode_escape.
  change (is_plain (String backslash (String "u" ?s))) with (is_plain s).
  now rewrite !is_plain_hex_digit.
Qed.

Lemma is_plain_escape_ascii (a : ascii) :
  is_plain (escape_char (N_of_ascii a)) = true.
Proof.
  destruct a as [[] [] [] [] [] [] [] []]; reflexivity.
Qed.

Lemma is_plain_escape_char (c : N) : is_plain (escape_char c) = true.
Proof.
  destruct (N.ltb_spec c 256) as [Hlt|Hge].
  - pose proof (is_plain_escape_ascii (ascii_of_N c)) as H.
    now rewrite (N_of_byte c Hlt) in H.
  - rewrite escape_char_wide by lia.
    destruct (c <? 65536)%N; now rewrite !is_plain_unicode_escape.
Qed.

Lemma is_plain_escape (s : text) : is_plain (escape s) = true.
Proof.
  induction s as [|c s IH]; simpl; [reflexivity|].
  now rewrite is_plain_append, is_plain_escape_char, IH.
Qed.

Lemma is_plain_render_string (s : text) : is_plain (render_string s) = true.
Proof.
  unfold render_string.
  change (is_plain (String quote ?s)) with (is_plain s).
  now rewrite is_plain_append, is_plain_escape.
Qed.

Lemma is_plain_uint (u : Decimal.uint) :
  is_plain (NilEmpty.string_of_uint u) = true.
Proof. induction u; simpl; auto. Qed.

(** *** Numbers *)

Lemma closed_no_digit (rest : string) :
  closed rest ->
  no_digit rest /\ scan_fraction rest = (None, rest) /\
  scan_exponent rest = (None, rest).
Proof.
  intros [Hr|(c & r & Hr & [Hc|[Hc|Hc]])]; subst; repeat split;
    reflexivity.
Qed.

Lemma scan_digits_render (u : Decimal.uint) (rest : string) :
  no_digit rest ->
  scan_digits (NilEmpty.string_of_uint u +:+ rest) = (u, rest).
Proof.
  unfold no_digit. intros Hrest.
  induction u; simpl; push_append; simpl; try rewrite IHu; auto.
Qed.

Lemma nzhead_not_D0 (u u' : Decimal.uint) :
  Decimal.nzhead u <> Decimal.D0 u'.
Proof. induction u; simpl; auto; discriminate. Qed.

Lemma to_uint_headed (p : positive) : headed (Pos.to_uint p).
Proof.
  pose proof (DecimalPos.Unsigned.to_of (Pos.to_uint p)) as H.
  rewrite DecimalPos.Unsigned.of_to in H. simpl in H.
  pose proof (DecimalPos.Unsigned.to_uint_nonzero p) as Hz.
  pose proof (DecimalPos.Unsigned.to_uint_nonnil p) as Hn.
  destruct (Pos.to_uint p) as [|u| | | | | | | | |] eqn:E; simpl; auto.
  exfalso. unfold Decimal.unorm in H.
  destruct (Decimal.nzhead (Decimal.D0 u)) eqn:E'; try discriminate.
  - inversion H. subst. now apply Hz.
  - now apply nzhead_not_D0 in E'.
Qed.

Lemma headed_whole (u : Decimal.uint) : headed u -> Float.is_whole u = true.
Proof. destruct u; simpl; auto; contradiction. Qed.

Lemma string_of_uint_headed (u : Decimal.uint) :
  headed u -> NilZero.string_of_uint u = NilEmpty.string_of_uint u.
Proof. destruct u; simpl; auto; contradiction. Qed.

Lemma scan_integer_render (u : Decimal.uint) (rest : string) :
  Float.is_whole u = true -> no_digit rest ->
  scan_integer (NilEmpty.string_of_uint u +:+ rest) = Some (u, rest).
Proof.
  intros Hu Hrest. pose proof (scan_digits_render u rest Hrest) as H.
  destruct u as [|u| | | | | | | | |]; simpl in Hu; try discriminate;
    try (simpl in *; push_append; simpl; unfold scan_integer; simpl;
         push_append; now rewrite H).
  destruct u; try discriminate. reflexivity.
Qed.

(** The digits of a number start with a digit. *)
Lemma whole_starts (u : Decimal.uint) :
  Float.is_whole u = true ->
  exists c r, NilEmpty.string_of_uint u = String c r /\ is_digit c = true.
Proof.
  destruct u; simpl; try discriminate; intros _; eauto.
Qed.

Lemma digits_start (u : Decimal.uint) :
  Float.has_digits u = true ->
  exists c r, NilEmpty.string_of_uint u = String c r /\ is_digit c = true.
Proof.
  destruct u; simpl; try discriminate; intros _; eauto.
Qed.

Section Numbers.

Variable env : interpreter.

Lemma digit_not_minus (c : ascii) : is_digit c = true -> Ascii.eqb c "-" = false.
Proof. destruct c as [[] [] [] [] [] [] [] []]; try discriminate; reflexivity. Qed.

Lemma scan_number_digit (c : ascii) (s : string) :
  is_digit c = true ->
  scan_number env (String c s) = number_after env false (String c s).
Proof.
  intros H. unfold scan_number. now rewrite (digit_not_minus c H).
Qed.

Lemma scan_number_minus (s : string) :
  scan_number env (String "-" s) = number_after env true s.
Proof. reflexivity. Qed.

Lemma scan_once_digit (fuel depth : nat) (c : ascii) (s : string) :
  is_digit c = true ->
  scan_once env (S fuel) depth (String c s) = scan_number env (String c s).
Proof.
  destruct c as [[] [] [] [] [] [] [] []]; try discriminate; reflexivity.
Qed.

Lemma scan_once_minus (fuel depth : nat) (c : ascii) (s : string) :
  is_digit c = true ->
  scan_once env (S fuel) depth (String "-" (String c s)) =
  scan_number env (String "-" (String c s)).
Proof.
  destruct c as [[] [] [] [] [] [] [] []]; try discriminate; reflexivity.
Qed.

Lemma number_after_int (minus : bool) (u : Decimal.uint) (rest : string) :
  Float.is_whole u = true -> closed rest ->
  Int.exceeds env (Decimal.nb_digits u) = false ->
  number_after env minus (NilEmpty.string_of_uint u +:+ rest) =
  inr (JInt (Z.of_int (if minus then Decimal.Neg u else Decimal.Pos u)), rest).
Proof.
  intros Hu Hrest Hlim.
  destruct (closed_no_digit rest Hrest) as (Hd & Hf & He).
  unfold number_after. rewrite scan_integer_render by assumption.
  now rewrite Hf, He, Hlim.
Qed.

(** The text of an integer. *)
Lemma render_int_cases (n : Z) :
  exists minus u,
    Int.render n = (if minus : bool then "-" else "") +:+
                   NilEmpty.string_of_uint u /\
    Float.is_whole u = true /\ Int.digits n = Decimal.nb_digits u /\
    Z.of_int (if minus then Decimal.Neg u else Decimal.Pos u) = n.
Proof.
  unfold Int.render, Int.digits. destruct n as [|p|p]; simpl Z.to_int.
  - exists false, (Decimal.D0 Decimal.Nil). repeat split.
  - exists false, (Pos.to_uint p). pose proof (to_uint_headed p) as Hh.
    simpl NilZero.string_of_int. rewrite string_of_uint_headed by exact Hh.
    repeat split; [now apply headed_whole|].
    apply (DecimalZ.of_to (Z.pos p)).
  - exists true, (Pos.to_uint p). pose proof (to_uint_headed p) as Hh.
    simpl NilZero.string_of_int. rewrite string_of_uint_headed by exact Hh.
    repeat split; [now apply headed_whole|].
    apply (DecimalZ.of_to (Z.neg p)).
Qed.

(** What starts a number is read as a number. *)
Lemma scan_once_number (fuel depth : nat) (minus : bool) (u : Decimal.uint)
    (rest : string) :
  Float.is_whole u = true ->
  scan_once env (S fuel) depth
    ((if minus then "-" else "") +:+ NilEmpty.string_of_uint u +:+ rest) =
  number_after env minus (NilEmpty.string_of_uint u +:+ rest).
Proof.
  intros Hu. destruct (whole_starts u Hu) as (c & r & -> & Hc).
  destruct minus; push_append.
  - rewrite scan_once_minus by exact Hc. apply scan_number_minus.
  - rewrite scan_once_digit by exact Hc. now apply scan_number_digit.
Qed.

Lemma scan_once_int (fuel depth : nat) (n : Z) (rest : string) :
  closed rest -> Int.exceeds env (Int.digits n) = false ->
  scan_once env (S fuel) depth (Int.render n +:+ rest) = inr (JInt n, rest).
Proof.
  intros Hrest Hlim.
  destruct (render_int_cases n) as (minus & u & -> & Hu & Hd & Hn).
  rewrite append_assoc, scan_once_number by exact Hu.
  rewrite number_after_int; try assumption; [now rewrite Hn | now rewrite <- Hd].
Qed.

Lemma is_plain_render_int (n : Z) : is_plain (Int.render n) = true.
Proof.
  destruct (render_int_cases n) as (minus & u & -> & _).
  rewrite is_plain_append, is_plain_uint. now destruct minus.
Qed.

(** *** Floats *)

Lemma scan_fraction_render (u : Decimal.uint) (rest : string) :
  Float.has_digits u = true -> no_digit rest ->
  scan_fraction ("." +:+ NilEmpty.string_of_uint u +:+ rest) = (Some u, rest).
Proof.
  intros Hu Hrest. pose proof (scan_digits_render u rest Hrest) as H.
  destruct (digits_start u Hu) as (c & r & E & Hc). rewrite E in *.
  push_append. unfold scan_fraction.
  change (Ascii.eqb "." ".") with true. cbv iota. rewrite Hc.
  rewrite <- append_cons. now rewrite H.
Qed.

Lemma scan_exponent_render (minus : bool) (u : Decimal.uint) (rest : string) :
  Float.has_digits u = true -> no_digit rest ->
  scan_exponent ("e" +:+ (if minus then "-" else "+") +:+
                 NilEmpty.string_of_uint u +:+ rest) =
  (Some (minus, u), rest).
Proof.
  intros Hu Hrest. pose proof (scan_digits_render u rest Hrest) as H.
  destruct (digits_start u Hu) as (c & r & E & Hc). rewrite E in *.
  destruct minus; push_append; unfold scan_exponent;
    change (Ascii.eqb "e" "e" || Ascii.eqb "e" "E") with true; cbv iota;
    simpl is_digit; cbv iota; simpl orb; cbv iota; rewrite Hc;
    rewrite <- append_cons; now rewrite H.
Qed.

Lemma no_digit_exponent (s : string) : no_digit ("e" +:+ s).
Proof. reflexivity. Qed.

Lemma no_digit_point (s : string) : no_digit ("." +:+ s).
Proof. reflexivity. Qed.

Lemma scan_fraction_exponent (s : string) :
  scan_fraction ("e" +:+ s) = (None, "e" +:+ s).
Proof. reflexivity. Qed.

Lemma render_literal_parts (l : Float.literal) (rest : string) :
  Float.render_literal l +:+ rest =
  (if Float.negative l then "-" else "") +:+
  NilEmpty.string_of_uint (Float.whole l) +:+
  (fraction_text l +:+ exponent_text l +:+ rest).
Proof.
  unfold Float.render_literal. fold (fraction_text l). fold (exponent_text l).
  now rewrite !append_assoc.
Qed.

Lemma number_after_literal (l : Float.literal) (rest : string) :
  Float.is_literal l = true -> closed rest ->
  number_after env (Float.negative l)
    (NilEmpty.string_of_uint (Float.whole l) +:+
     (fraction_text l +:+ exponent_text l +:+ rest)) =
  inr (JFloat (float_of_literal env l), rest).
Proof.
  destruct l as [minus u fraction exponent].
  unfold Float.is_literal, fraction_text, exponent_text. simpl.
  intros Hl Hrest.
  apply andb_prop in Hl as [Hl Hany]. apply andb_prop in Hl as [Hl He].
  apply andb_prop in Hl as [Hu Hf].
  destruct (closed_no_digit rest Hrest) as (Hd & Hfr & Her).
  unfold number_after.
  destruct fraction as [f|], exponent as [[m e]|]; try discriminate;
    rewrite ?append_assoc, ?append_nil.
  - rewrite scan_integer_render; [|exact Hu|apply no_digit_point].
    rewrite scan_fraction_render; [|exact Hf|apply no_digit_exponent].
    now rewrite scan_exponent_render.
  - rewrite scan_integer_render; [|exact Hu|apply no_digit_point].
    rewrite scan_fraction_render by assumption.
    now rewrite Her.
  - rewrite scan_integer_render; [|exact Hu|apply no_digit_exponent].
    rewrite scan_fraction_exponent.
    now rewrite scan_exponent_render.
Qed.

Lemma scan_once_float (fuel depth : nat) (f : Float.t) (rest : string) :
  closed rest -> is_float env f = true ->
  scan_once env (S fuel) depth (render_float f +:+ rest) = inr (JFloat f, rest).
Proof.
  intros Hrest Hf. destruct f as [|[]|l]; try reflexivity.
  simpl in Hf. apply andb_prop in Hf as [Hl Hd].
  apply bool_decide_eq_true in Hd.
  simpl render_float. rewrite render_literal_parts.
  assert (Hu : Float.is_whole (Float.whole l) = true).
  { unfold Float.is_literal in Hl. now repeat (apply andb_prop in Hl as [Hl _]). }
  rewrite scan_once_number by exact Hu.
  rewrite number_after_literal by assumption. now rewrite Hd.
Qed.

Lemma is_plain_render_float (f : Float.t) : is_plain (render_float f) = true.
Proof.
  destruct f as [|[]|[minus u fraction exponent]]; try reflexivity.
  unfold render_float, Float.render_literal. simpl.
  rewrite !is_plain_append, is_plain_uint.
  destruct minus, fraction as [u1|], exponent as [[[] u2]|]; simpl;
    rewrite ?is_plain_append, ?is_plain_uint; reflexivity.
Qed.

End Numbers.

End JsonFacts.

(** ** The round trip through JSON *)

Module JsonRoundTrip.

Import Json JsonFacts.

Section RoundTrip.

Variable env : interpreter.

Lemma starts_value_facts (c : ascii) :
  starts_value c = true ->
  is_whitespace c = false /\ Ascii.eqb c "]" = false /\
  Ascii.eqb c "}" = false.
Proof.
  destruct c as [[] [] [] [] [] [] [] []]; try discriminate; auto.
Qed.

Lemma digit_starts_value (c : ascii) :
  is_digit c = true -> starts_value c = true.
Proof. intros H. unfold starts_value. now rewrite H. Qed.

Lemma written_arr (js : list json) :
  written env (JArr js) <-> Forall (written env) js.
Proof.
  simpl. induction js as [|j js IH]; simpl.
  - split; [constructor | auto].
  - rewrite Forall_cons, IH. tauto.
Qed.

Lemma written_obj (ms : list (text * json)) :
  written env (JObj ms) <->
  Forall (fun kv => is_text (fst kv) = true /\ written env (snd kv)) ms.
Proof.
  simpl. induction ms as [|kv ms IH]; simpl.
  - split; [constructor | auto].
  - rewrite Forall_cons, IH. tauto.
Qed.

Lemma render_starts (j : json) :
  written env j ->
  exists c r, render j = String c r /\ starts_value c = true.
Proof.
  destruct j as [|[]|n|f|s|js|ms]; intros Hj; simpl render;
    try (do 2 eexists; split; [reflexivity|reflexivity]).
  - destruct (render_int_cases n) as (minus & u & -> & Hu & _).
    destruct (whole_starts u Hu) as (c & r & -> & Hc).
    destruct minus; push_append; eauto using digit_starts_value.
  - destruct f as [|[]|l]; try (do 2 eexists; split; reflexivity).
    simpl in Hj. apply andb_prop in Hj as [Hl _].
    assert (Hu : Float.is_whole (Float.whole l) = true).
    { unfold Float.is_literal in Hl.
      now repeat (apply andb_prop in Hl as [Hl _]). }
    simpl. rewrite <- (append_empty (Float.render_literal l)).
    rewrite render_literal_parts.
    destruct (whole_starts _ Hu) as (c & r & -> & Hc).
    destruct (Float.negative l); push_append; eauto using digit_starts_value.
Qed.

Lemma skip_whitespace_value (j : json) (rest : string) :
  written env j ->
  skip_whitespace (render j +:+ rest) = render j +:+ rest /\
  next_is "]" (render j +:+ rest) = false /\
  next_is "}" (render j +:+ rest) = false.
Proof.
  intros Hj. destruct (render_starts j Hj) as (c & r & -> & Hc).
  destruct (starts_value_facts c Hc) as (Hw & Hb & Hc').
  push_append. simpl. rewrite Hw. auto.
Qed.

Lemma join_two (x y : string) (l : list string) :
  join (x :: y :: l) = x +:+ ", " +:+ join (y :: l).
Proof. reflexivity. Qed.

Lemma join_map_two {A} (f : A -> string) (a b : A) (l : list A) :
  join (map f (a :: b :: l)) = f a +:+ ", " +:+ join (map f (b :: l)).
Proof. reflexivity. Qed.

Lemma join_map_one {A} (f : A -> string) (a : A) : join (map f [a]) = f a.
Proof. reflexivity. Qed.

Lemma skip_whitespace_items (j : json) (js : list json) (rest : string) :
  written env j ->
  skip_whitespace (join (map render (j :: js)) +:+ rest) =
    join (map render (j :: js)) +:+ rest /\
  next_is "]" (join (map render (j :: js)) +:+ rest) = false.
Proof.
  intros Hj. destruct js as [|j2 js].
  - rewrite join_map_one.
    destruct (skip_whitespace_value j rest Hj) as (H1 & H2 & _). auto.
  - rewrite join_map_two, !append_assoc.
    destruct (skip_whitespace_value j
                (", " +:+ join (map render (j2 :: js)) +:+ rest) Hj)
      as (H1 & H2 & _). auto.
Qed.

Lemma skip_space (s : string) :
  skip_whitespace (String " " s) = skip_whitespace s.
Proof. reflexivity. Qed.

Lemma skip_colon (s : string) :
  skip_whitespace (String ":" s) = String ":" s.
Proof. reflexivity. Qed.

Lemma skip_comma (s : string) :
  skip_whitespace (String "," s) = String "," s.
Proof. reflexivity. Qed.

Lemma skip_bracket (s : string) :
  skip_whitespace (String "]" s) = String "]" s.
Proof. reflexivity. Qed.

Lemma skip_brace (s : string) :
  skip_whitespace (String "}" s) = String "}" s.
Proof. reflexivity. Qed.

Lemma drop_one (c : ascii) (s : string) : drop_chars 1 (String c s) = s.
Proof. reflexivity. Qed.

Lemma next_is_same (c : ascii) (s : string) : next_is c (String c s) = true.
Proof. simpl. apply Ascii.eqb_refl. Qed.

Lemma next_bracket_comma (s : string) : next_is "]" (String "," s) = false.
Proof. reflexivity. Qed.

Lemma next_brace_comma (s : string) : next_is "}" (String "," s) = false.
Proof. reflexivity. Qed.

Lemma next_quote_brace (s : string) : next_is quote (String "{" s) = false.
Proof. reflexivity. Qed.

Lemma next_quote_bracket (s : string) : next_is quote (String "[" s) = false.
Proof. reflexivity. Qed.

Lemma next_brace_bracket (s : string) : next_is "{" (String "[" s) = false.
Proof. reflexivity. Qed.

Lemma scan_once_step (fuel depth : nat) (s : string) :
  scan_once env (S fuel) depth s =
      if next_is quote s then
        match scanstring (drop_chars 1 s) with
        | inl e => inl e
        | inr (chars, rest) => inr (JStr chars, rest)
        end
      else if next_is "{" s then
        match depth with
        | O => inl RecursionError
        | S depth' =>
            let s1 := skip_whitespace (drop_chars 1 s) in
            if next_is "}" s1 then inr (JObj [], drop_chars 1 s1)
            else
              match parse_members env fuel depth' s1 with
              | inl e => inl e
              | inr (members, rest) => inr (JObj members, rest)
              end
        end
      else if next_is "[" s then
        match depth with
        | O => inl RecursionError
        | S depth' =>
            let s1 := skip_whitespace (drop_chars 1 s) in
            if next_is "]" s1 then inr (JArr [], drop_chars 1 s1)
            else
              match parse_items env fuel depth' s1 with
              | inl e => inl e
              | inr (js, rest) => inr (JArr js, rest)
              end
        end
      else if starts_with "null" s then inr (JNull, drop_chars 4 s)
      else if starts_with "true" s then inr (JBool true, drop_chars 4 s)
      else if starts_with "false" s then inr (JBool false, drop_chars 5 s)
      else if starts_with "NaN" s then inr (JFloat Float.NaN, drop_chars 3 s)
      else if starts_with "Infinity" s
      then inr (JFloat (Float.Infinity false), drop_chars 8 s)
      else if starts_with "-Infinity" s
      then inr (JFloat (Float.Infinity true), drop_chars 9 s)
      else scan_number env s.
Proof. reflexivity. Qed.

Lemma parse_items_step (fuel depth : nat) (s : string) :
  parse_items env (S fuel) depth s =
      match scan_once env fuel depth s with
      | inl e => inl e
      | inr (j, s1) =>
          let s2 := skip_whitespace s1 in
          if next_is "]" s2 then inr ([j], drop_chars 1 s2)
          else if next_is "," s2 then
            match
              parse_items env fuel depth (skip_whitespace (drop_chars 1 s2))
            with
            | inl e => inl e
            | inr (js, rest) => inr (j :: js, rest)
            end
          else inl JSONDecodeError
      end.
Proof. reflexivity. Qed.

Lemma parse_members_step (fuel depth : nat) (s : string) :
  parse_members env (S fuel) depth s =
      if next_is quote s then
        match scanstring (drop_chars 1 s) with
        | inl e => inl e
        | inr (key, s1) =>
            let s2 := skip_whitespace s1 in
            if next_is ":" s2 then
              match
                scan_once env fuel depth (skip_whitespace (drop_chars 1 s2))
              with
              | inl e => inl e
              | inr (j, s3) =>
                  let s4 := skip_whitespace s3 in
                  if next_is "}" s4 then inr ([(key, j)], drop_chars 1 s4)
                  else if next_is "," s4 then
                    match
                      parse_members env fuel depth
                        (skip_whitespace (drop_chars 1 s4))
                    with
                    | inl e => inl e
                    | inr (members, rest) => inr ((key, j) :: members, rest)
                    end
                  else inl JSONDecodeError
              end
            else inl JSONDecodeError
        end
      else inl JSONDecodeError.
Proof. reflexivity. Qed.

Lemma closed_bracket rest : closed (String "]" rest).
Proof. right. eauto 6. Qed.

Lemma closed_brace rest : closed (String "}" rest).
Proof. right. eauto 6. Qed.

Lemma closed_comma rest : closed (String "," rest).
Proof. right. eauto 6. Qed.

End RoundTrip.

Create Rewrite HintDb scan.

#[local] Hint Rewrite skip_space skip_colon skip_comma skip_bracket skip_brace
  drop_one next_is_same next_bracket_comma next_brace_comma next_quote_brace
  next_quote_bracket next_brace_bracket : scan.

Ltac scan := cbv zeta; autorewrite with scan; cbv beta iota.

Section Documents.

Variable env : interpreter.

Lemma parse_items_render (js : list json) :
  Forall (reads_back env) js ->
  forall j fuel depth rest,
    reads_back env j ->
    fold_right (fun j n => S (weight j) + n) 0 (j :: js) <= fuel ->
    Forall (fun j => height j <= depth) (j :: js) ->
    Forall (written env) (j :: js) ->
    parse_items env fuel depth
      (join (map render (j :: js)) +:+ String "]" rest) =
    inr (map joined (j :: js), rest).
Proof.
  induction 1 as [|j2 js Hj2 Hjs IH]; intros j fuel depth rest Hj Hfuel Hd Hw;
    simpl in Hfuel; (destruct fuel as [|fuel]; [lia|]);
    rewrite parse_items_step;
    apply Forall_cons in Hd as [Hd1 Hd2]; apply Forall_cons in Hw as [Hw1 Hw2].
  - rewrite join_map_one.
    rewrite Hj; [|lia|exact Hd1|apply closed_bracket|exact Hw1].
    scan. reflexivity.
  - rewrite join_map_two, !append_assoc. push_append.
    rewrite Hj; [|lia|exact Hd1|apply closed_comma|exact Hw1]. scan.
    pose proof Hw2 as Hw2'. apply Forall_cons in Hw2' as [Hw3 _].
    rewrite (proj1 (skip_whitespace_items env j2 js _ Hw3)).
    rewrite IH; auto. simpl. lia.
Qed.

Lemma render_member_unfold (k : text) (j : json) (rest : string) :
  render_member (k, j) +:+ rest =
  String quote
    (escape k +:+ String quote (String ":" (String " " (render j +:+ rest)))).
Proof.
  unfold render_member, render_string. simpl fst. simpl snd.
  push_append. rewrite !append_assoc. now push_append.
Qed.

Lemma skip_whitespace_members kv (ms : list (text * json)) (rest : string) :
  skip_whitespace (join (map render_member (kv :: ms)) +:+ rest) =
    join (map render_member (kv :: ms)) +:+ rest /\
  next_is "}" (join (map render_member (kv :: ms)) +:+ rest) = false.
Proof.
  destruct kv as [k j]. destruct ms as [|kv2 ms].
  - rewrite join_map_one, render_member_unfold. auto.
  - rewrite join_map_two, !append_assoc, render_member_unfold. auto.
Qed.

Lemma parse_members_render (ms : list (text * json)) :
  Forall (fun kv => reads_back env (snd kv)) ms ->
  forall kv fuel depth rest,
    reads_back env (snd kv) ->
    fold_right (fun kv n => S (weight (snd kv)) + n) 0 (kv :: ms) <= fuel ->
    Forall (fun kv => height (snd kv) <= depth) (kv :: ms) ->
    Forall (fun kv => is_text (fst kv) = true /\ written env (snd kv))
      (kv :: ms) ->
    parse_members env fuel depth
      (join (map render_member (kv :: ms)) +:+ String "}" rest) =
    inr (map joined_member (kv :: ms), rest).
Proof.
  induction 1 as [|kv2 ms Hkv2 Hms IH];
    intros [k j] fuel depth rest Hj Hfuel Hd Hw;
    simpl in Hfuel, Hj; (destruct fuel as [|fuel]; [lia|]);
    rewrite parse_members_step;
    apply Forall_cons in Hd as [Hd1 Hd2];
    apply Forall_cons in Hw as [[Hk Hw1] Hw2]; simpl in Hd1, Hk, Hw1.
  - rewrite join_map_one, render_member_unfold. scan.
    rewrite scanstring_escape by exact Hk. scan.
    rewrite (proj1 (skip_whitespace_value env j _ Hw1)).
    rewrite Hj; [|lia|exact Hd1|apply closed_brace|exact Hw1].
    scan. reflexivity.
  - rewrite join_map_two, !append_assoc, render_member_unfold. scan.
    rewrite scanstring_escape by exact Hk. scan.
    rewrite (proj1 (skip_whitespace_value env j _ Hw1)).
    push_append.
    rewrite Hj; [|lia|exact Hd1|apply closed_comma|exact Hw1]. scan.
    rewrite (proj1 (skip_whitespace_members kv2 ms _)).
    rewrite IH; auto. simpl. lia.
Qed.

Lemma height_items {A} (h : A -> nat) (l : list A) (depth : nat) :
  fold_right (fun a n => Nat.max (h a) n) 0 l <= depth <->
  Forall (fun a => h a <= depth) l.
Proof.
  induction l as [|a l IH]; simpl.
  - split; [constructor | lia].
  - rewrite Forall_cons, <- IH. lia.
Qed.

(** Every document [to_json] makes is read back from its text, within the
    depth the decoder goes to. *)
Theorem scan_once_render (j : json) : reads_back env j.
Proof.
  induction j as [|b|n|f|s|js IH|ms IH] using json_induction;
    intros fuel depth rest Hfuel Hdepth Hrest Hw; simpl in Hfuel;
    (destruct fuel as [|fuel]; [lia|]).
  - simpl render. push_append. rewrite scan_once_step. reflexivity.
  - destruct b; reflexivity.
  - simpl render. now apply scan_once_int.
  - simpl render. now apply scan_once_float.
  - simpl render. unfold render_string. push_append.
    rewrite scan_once_step. scan.
    rewrite append_assoc. push_append. now rewrite scanstring_escape.
  - simpl render. push_append. rewrite append_assoc. push_append.
    rewrite scan_once_step. scan.
    change (height (JArr js))
      with (S (fold_right (fun j n => Nat.max (height j) n) 0 js)) in Hdepth.
    destruct depth as [|depth]; [lia|].
    apply written_arr in Hw.
    destruct js as [|j js].
    + reflexivity.
    + apply Forall_cons in IH as [Hj Hjs].
      pose proof Hw as Hw'. apply Forall_cons in Hw' as [Hw1 _].
      destruct (skip_whitespace_items env j js (String "]" rest) Hw1)
        as [-> ->].
      rewrite parse_items_render; auto.
      * simpl in *. lia.
      * apply height_items. lia.
  - simpl render. push_append. rewrite append_assoc. push_append.
    rewrite scan_once_step. scan.
    change (height (JObj ms))
      with (S (fold_right (fun kv n => Nat.max (height (snd kv)) n) 0 ms))
      in Hdepth.
    destruct depth as [|depth]; [lia|].
    apply written_obj in Hw.
    destruct ms as [|kv ms].
    + reflexivity.
    + apply Forall_cons in IH as [Hj Hjs].
      change (map (fun kv : text * json =>
                     render_string (fst kv) +:+ ": " +:+ render (snd kv)))
        with (map render_member).
      destruct (skip_whitespace_members kv ms (String "}" rest)) as [-> ->].
      rewrite parse_members_render; auto.
      * simpl in *. lia.
      * apply (height_items (fun kv : text * json => height (snd kv))). lia.
Qed.

(** The length of a text bounds the fuel that reads it back. *)
Lemma render_nonempty (j : json) :
  written env j -> 1 <= String.length (render j).
Proof.
  intros Hj. destruct (render_starts env j Hj) as (c & r & -> & _).
  simpl. lia.
Qed.

Lemma weight_join {A} (w : A -> nat) (f : A -> string) (l : list A) :
  Forall (fun a => w a <= String.length (f a)) l ->
  fold_right (fun a n => S (w a) + n) 0 l <=
  1 + String.length (join (map f l)).
Proof.
  induction 1 as [|a l Ha Hl IH]; [simpl; lia|].
  destruct l as [|b l].
  - rewrite join_map_one. simpl. lia.
  - rewrite join_map_two, !length_append.
    change (String.length ", ") with 2.
    remember (b :: l) as l' eqn:E.
    change (fold_right (fun a n => S (w a) + n) 0 (a :: l'))
      with (S (w a) + fold_right (fun a n => S (w a) + n) 0 l').
    lia.
Qed.

Lemma weight_length (j : json) :
  written env j -> weight j <= String.length (render j).
Proof.
  induction j as [|b|n|f|s|js IH|ms IH] using json_induction; intros Hw;
    try apply (render_nonempty _ Hw).
  - change (weight (JArr js))
      with (S (fold_right (fun j n => S (weight j) + n) 0 js)).
    change (render (JArr js)) with ("[" +:+ join (map render js) +:+ "]").
    rewrite !length_append.
    change (String.length "[") with 1. change (String.length "]") with 1.
    apply written_arr in Hw.
    assert (H : Forall (fun j => weight j <= String.length (render j)) js).
    { clear -IH Hw. induction IH; inversion Hw; subst; constructor; auto. }
    pose proof (weight_join weight render js H). lia.
  - change (weight (JObj ms))
      with (S (fold_right (fun kv n => S (weight (snd kv)) + n) 0 ms)).
    change (render (JObj ms))
      with ("{" +:+ join (map render_member ms) +:+ "}").
    rewrite !length_append.
    change (String.length "{") with 1. change (String.length "}") with 1.
    apply written_obj in Hw.
    assert (H : Forall (fun kv : text * json =>
                          weight (snd kv) <= String.length (render_member kv))
                  ms).
    { clear -IH Hw. induction IH as [|[k v] ms Hv _ IH']; inversion Hw; subst;
        constructor; auto.
      simpl in *. unfold render_member. rewrite !length_append. simpl.
      destruct H1 as [_ H1]. specialize (Hv H1). lia. }
    pose proof (weight_join (fun kv => weight (snd kv)) render_member ms H).
    lia.
Qed.

(** The decoder reads a document back from its text. *)
Theorem decode_render (j : json) :
  written env j -> height j <= decoder_depth env ->
  decode env (render j) = inr (of_json (joined j)).
Proof.
  intros Hw Hd. unfold decode.
  pose proof (skip_whitespace_value env j "" Hw) as (Hs & _).
  rewrite append_empty in Hs. rewrite Hs.
  rewrite <- (append_empty (render j)) at 2.
  rewrite scan_once_render; [reflexivity| |exact Hd|now left|exact Hw].
  pose proof (weight_length j Hw). lia.
Qed.

End Documents.

(** *** Values *)

Lemma traverse_Forall2 {A B} (f : A -> outcome B) (l : list A) (bs : list B) :
  traverse f l = inr bs <-> Forall2 (fun a b => f a = inr b) l bs.
Proof.
  split.
  - revert bs. induction l as [|a l IH]; simpl; intros bs H.
    + inversion H. constructor.
    + destruct (f a) as [e|b] eqn:Ea; [discriminate|].
      destruct (traverse f l) as [e|bs'] eqn:El; [discriminate|].
      inversion H; subst. constructor; auto.
  - induction 1 as [|a b l bs' Ha _ IH]; simpl; [reflexivity|].
    now rewrite Ha, IH.
Qed.





(** *** Dicts with [str] keys *)



Section Values.

Variable env : interpreter.

Lemma faithful_items (depth : nat) (ds : list data) (js : list json) :
  Forall (faithful env) ds ->
  traverse (to_json env depth) ds = inr js ->
  Forall (written env) js /\
  fold_right (fun j n => Nat.max (height j) n) 0 js =
    fold_right (fun d n => Nat.max (nesting d) n) 0 ds /\
  fold_right (fun d n => Nat.max (nesting d) n) 0 ds <= depth /\
  map of_json (map joined js) = map decoded ds.
Proof.
  intros IH H. apply traverse_Forall2 in H.
  induction H as [|d j ds js Hd Hds IH']; inversion IH; subst.
  - split; [constructor|]. split; [reflexivity|].
    split; [simpl; lia | reflexivity].
  - destruct (H1 depth j Hd) as (Hw & Hh & Hn & Ho).
    destruct (IH' H2) as (Hws & Hhs & Hns & Hos).
    repeat split.
    + now constructor.
    + simpl. now rewrite Hh, Hhs.
    + simpl. lia.
    + simpl. now rewrite Ho, Hos.
Qed.

Lemma faithful_members (depth : nat) (kvs : list (text * data))
    (ms : list (text * json)) :
  Forall (fun kv => faithful env (snd kv)) kvs ->
  traverse
    (fun kv : text * data =>
       if is_text (fst kv) then
         match to_json env depth (snd kv) with
         | inl e => inl e
         | inr j => inr (fst kv, j)
         end
       else inl Unmodelled) kvs = inr ms ->
  Forall (fun kv => is_text (fst kv) = true /\ written env (snd kv)) ms /\
  fold_right (fun kv n => Nat.max (height (snd kv)) n) 0 ms =
    fold_right (fun kv n => Nat.max (nesting (snd kv)) n) 0 kvs /\
  fold_right (fun kv n => Nat.max (nesting (snd kv)) n) 0 kvs <= depth /\
  map (fun kv : text * json => (fst kv, of_json (snd kv)))
    (map joined_member ms) =
  map (fun kv : text * data => (join_surrogates (fst kv), decoded (snd kv)))
    kvs.
Proof.
  intros IH H. apply traverse_Forall2 in H.
  induction H as [|[k d] [k' j] kvs ms Hd Hds IH']; inversion IH; subst.
  - split; [constructor|]. split; [reflexivity|].
    split; [simpl; lia | reflexivity].
  - simpl in Hd, H1. destruct (is_text k) eqn:Hk; [|discriminate].
    destruct (to_json env depth d) as [e|j'] eqn:Hj; [discriminate|].
    inversion Hd; subst k' j'.
    destruct (H1 depth j Hj) as (Hw & Hh & Hn & Ho).
    destruct (IH' H2) as (Hws & Hhs & Hns & Hos).
    repeat split.
    + constructor; auto.
    + simpl. now rewrite Hh, Hhs.
    + simpl. lia.
    + rewrite !List.map_cons, Hos. unfold joined_member. simpl.
      now rewrite Ho.
Qed.

Lemma to_json_faithful (d : data) : faithful env d.
Proof.
  induction d as [|b|n|f|s|s|ds IH|ds IH|kvs IH] using data_induction;
    intros depth j Hj; simpl in Hj.
  - inversion Hj; subst. simpl. repeat split; lia.
  - inversion Hj; subst. simpl. repeat split; lia.
  - destruct (Int.exceeds env (Int.digits n)) eqn:E; inversion Hj; subst.
    simpl. repeat split; auto; lia.
  - destruct (is_float env f) eqn:E; inversion Hj; subst.
    simpl. repeat split; auto; lia.
  - destruct (is_text s) eqn:E; inversion Hj; subst.
    simpl. repeat split; auto; lia.
  - discriminate.
  - destruct depth as [|depth]; [discriminate|].
    destruct (traverse (to_json env depth) ds) as [e|js] eqn:E;
      inversion Hj; subst.
    destruct (faithful_items depth ds js IH E) as (Hw & Hh & Hn & Ho).
    repeat split.
    + now apply written_arr.
    + simpl. now rewrite Hh.
    + simpl. lia.
    + simpl. now rewrite Ho.
  - destruct depth as [|depth]; [discriminate|].
    destruct (traverse (to_json env depth) ds) as [e|js] eqn:E;
      inversion Hj; subst.
    destruct (faithful_items depth ds js IH E) as (Hw & Hh & Hn & Ho).
    repeat split.
    + now apply written_arr.
    + simpl. now rewrite Hh.
    + simpl. lia.
    + simpl. now rewrite Ho.
  - destruct depth as [|depth]; [discriminate|].
    match type of Hj with
    | match ?t with _ => _ end = _ => destruct t as [e|ms] eqn:E
    end; inversion Hj; subst.
    destruct (faithful_members depth kvs ms IH E) as (Hw & Hh & Hn & Ho).
    repeat split.
    + now apply written_obj.
    + simpl. now rewrite Hh.
    + simpl. lia.
    + simpl. change (map (fun kv : text * json =>
                            (join_surrogates (fst kv), joined (snd kv))))
        with (map joined_member). now rewrite Ho.
Qed.


End Values.

(** *** The text is plain ASCII *)

Lemma is_plain_join (l : list string) :
  Forall (fun s => is_plain s = true) l -> is_plain (join l) = true.
Proof.
  induction 1 as [|x l Hx Hl IH]; [reflexivity|].
  destruct l as [|y l]; [exact Hx|].
  rewrite join_two, !is_plain_append, Hx, IH. reflexivity.
Qed.

Lemma is_plain_render (j : json) : is_plain (render j) = true.
Proof.
  induction j as [|b|n|f|s|js IH|ms IH] using json_induction; simpl render.
  - reflexivity.
  - destruct b; reflexivity.
  - apply is_plain_render_int.
  - apply is_plain_render_float.
  - apply is_plain_render_string.
  - rewrite !is_plain_append, is_plain_join; [reflexivity|].
    clear -IH. induction IH; simpl; constructor; auto.
  - rewrite !is_plain_append, is_plain_join; [reflexivity|].
    change (map (fun kv : text * json =>
                   render_string (fst kv) +:+ ": " +:+ render (snd kv)))
      with (map render_member).
    clear -IH. induction IH as [|[k j] ms Hj _ IH].
    + constructor.
    + change (map render_member ((k, j) :: ms))
        with (render_member (k, j) :: map render_member ms).
      constructor; [|exact IH].
      unfold render_member. simpl fst. simpl snd. simpl in Hj.
      now rewrite !is_plain_append, is_plain_render_string, Hj.
Qed.



(** *** [loads] after [dumps] *)

(** What [dumps] writes is plain ASCII, and the decoder reads it back as
    the value decoded, when the value is nested no deeper than the decoder
    goes. *)
Theorem decode_dumps (env : interpreter) (d : data) (s : string) :
  dumps env d = inr s ->
  is_plain s = true /\
  Json.nesting d <= encoder_depth env /\
  (Json.nesting d <= decoder_depth env -> decode env s = inr (decoded d)).
Proof.
  unfold dumps. destruct (to_json env (encoder_depth env) d) as [e|j] eqn:E;
    intros H; inversion H; subst.
  destruct (to_json_faithful env d _ j E) as (Hw & Hh & Hn & Ho).
  split; [apply is_plain_render|]. split; [exact Hn|].
  intros Hd. rewrite decode_render; [now rewrite Ho|exact Hw|lia].
Qed.


(** *** What [dumps] accepts *)





End JsonRoundTrip.

(** ** Facts on UTF-8 *)

Module Utf8Facts.

Import Utf8 JsonFacts.

Lemma byte_of_ascii (a : ascii) : byte (N_of_ascii a) = a.
Proof. apply ascii_N_embedding. Qed.


Lemma N_of_ascii_lt (a : ascii) : (N_of_ascii a < 256)%N.
Proof. apply N_ascii_bounded. Qed.


Lemma continuation_inv (b : ascii) (x : N) :
  continuation b = Some x -> (x < 64)%N /\ b = byte (128 + x).
Proof.
  unfold continuation. pose proof (N_of_ascii_lt b) as Hb.
  destruct (N.leb_spec 128 (N_of_ascii b)) as [H1|H1]; simpl; [|discriminate].
  destruct (N.ltb_spec (N_of_ascii b) 192) as [H2|H2]; [|discriminate].
  intros H. inversion H; subst. split; [lia|].
  replace (128 + (N_of_ascii b - 128))%N with (N_of_ascii b) by lia.
  now rewrite byte_of_ascii.
Qed.

Lemma decode_step (b0 : ascii) (s1 : string) :
  decode (String b0 s1) =
      let n0 := N_of_ascii b0 in
      if (n0 <? 128)%N then push n0 (decode s1)
      else if (n0 <? 192)%N then inl UnicodeDecodeError
      else if (n0 <? 224)%N then
        match s1 with
        | String b1 s2 =>
            match continuation b1 with
            | Some x1 =>
                let c := ((n0 - 192) * 64 + x1)%N in
                if (c <? 128)%N then inl UnicodeDecodeError
                else push c (decode s2)
            | None => inl UnicodeDecodeError
            end
        | EmptyString => inl UnicodeDecodeError
        end
      else if (n0 <? 240)%N then
        match s1 with
        | String b1 (String b2 s3) =>
            match continuation b1, continuation b2 with
            | Some x1, Some x2 =>
                let c := (((n0 - 224) * 64 + x1) * 64 + x2)%N in
                if (c <? 2048)%N || is_surrogate c then inl UnicodeDecodeError
                else push c (decode s3)
            | _, _ => inl UnicodeDecodeError
            end
        | _ => inl UnicodeDecodeError
        end
      else if (n0 <? 248)%N then
        match s1 with
        | String b1 (String b2 (String b3 s4)) =>
            match continuation b1, continuation b2, continuation b3 with
            | Some x1, Some x2, Some x3 =>
                let c := ((((n0 - 240) * 64 + x1) * 64 + x2) * 64 + x3)%N in
                if (c <? 65536)%N || negb (c <? 1114112)%N
                then inl UnicodeDecodeError
                else push c (decode s4)
            | _, _, _ => inl UnicodeDecodeError
            end
        | _ => inl UnicodeDecodeError
        end
      else inl UnicodeDecodeError.
Proof. reflexivity. Qed.





Lemma push_inr (c : N) (r : outcome text) (t : text) :
  push c r = inr t -> exists t', r = inr t' /\ t = c :: t'.
Proof. destruct r as [e|t']; simpl; [discriminate|]. intros H. inversion H. eauto. Qed.

(** Encoding what [decode] gives is the bytes. *)
Theorem encode_decode (b : string) :
  forall t, decode b = inr t -> encode t = inr b.
Proof.
  remember (String.length b) as n eqn:Hn.
  assert (Hle : String.length b <= n) by lia. clear Hn.
  revert b Hle. induction n as [|n IH]; intros b Hle t.
  { destruct b; [|simpl in Hle; lia]. simpl. intros H. now inversion H. }
  destruct b as [|b0 s1]; [simpl; intros H; now inversion H|].
  rewrite decode_step. cbv zeta. simpl in Hle.
  pose proof (N_of_ascii_lt b0) as Hb0.
  destruct (N.ltb_spec (N_of_ascii b0) 128) as [H1|H1].
  { intros H. apply push_inr in H as (t' & Ht' & ->).
    simpl. unfold encode_char.
    destruct (N.ltb_spec (N_of_ascii b0) 128) as [Hk2|Hk2]; [|lia].
    rewrite (IH s1 ltac:(lia) t' Ht'). now rewrite byte_of_ascii. }
  destruct (N.ltb_spec (N_of_ascii b0) 192) as [H2|H2]; [discriminate|].
  destruct (N.ltb_spec (N_of_ascii b0) 224) as [H3|H3].
  { destruct s1 as [|b1 s2]; [discriminate|].
    destruct (continuation b1) as [x1|] eqn:E1; [|discriminate].
    apply continuation_inv in E1 as [Hx1 ->].
    set (c := ((N_of_ascii b0 - 192) * 64 + x1)%N).
    destruct (N.ltb_spec c 128) as [H4|H4]; [discriminate|].
    intros H. apply push_inr in H as (t' & Ht' & ->).
    simpl in Hle. simpl. rewrite (IH s2 ltac:(lia) t' Ht').
    unfold encode_char.
    assert (Hq : (c / 64 = N_of_ascii b0 - 192)%N).
    { symmetry. apply (N.div_unique c 64 _ x1); unfold c; lia. }
    assert (Hr : (c mod 64 = x1)%N).
    { symmetry. apply (N.mod_unique c 64 (N_of_ascii b0 - 192)); unfold c; lia. }
    rewrite Hq, Hr.
    destruct (N.ltb_spec c 128) as [Hk3|Hk3]; [lia|].
    destruct (N.ltb_spec c 2048) as [Hk4|Hk4]; [|unfold c in *; lia].
    replace (192 + (N_of_ascii b0 - 192))%N with (N_of_ascii b0) by lia.
    now rewrite byte_of_ascii. }
  destruct (N.ltb_spec (N_of_ascii b0) 240) as [H4|H4].
  { destruct s1 as [|b1 [|b2 s3]]; try discriminate.
    destruct (continuation b1) as [x1|] eqn:E1; [|discriminate].
    destruct (continuation b2) as [x2|] eqn:E2; [|discriminate].
    apply continuation_inv in E1 as [Hx1 ->].
    apply continuation_inv in E2 as [Hx2 ->].
    set (c := (((N_of_ascii b0 - 224) * 64 + x1) * 64 + x2)%N).
    destruct (N.ltb_spec c 2048) as [H5|H5]; [discriminate|].
    destruct (is_surrogate c) eqn:Hs; [discriminate|]. simpl orb. cbv iota.
    intros H. apply push_inr in H as (t' & Ht' & ->).
    simpl in Hle. simpl. rewrite (IH s3 ltac:(lia) t' Ht').
    unfold encode_char.
    assert (Hq0 : (c / 64 = (N_of_ascii b0 - 224) * 64 + x1)%N).
    { symmetry. apply (N.div_unique c 64 _ x2); unfold c; lia. }
    assert (Hr0 : (c mod 64 = x2)%N).
    { symmetry. apply (N.mod_unique c 64 ((N_of_ascii b0 - 224) * 64 + x1));
        unfold c; lia. }
    assert (Hq1 : (c / 4096 = N_of_ascii b0 - 224)%N).
    { change 4096%N with (64 * 64)%N. rewrite <- N.Div0.div_div, Hq0.
      symmetry. apply (N.div_unique _ 64 _ x1); lia. }
    assert (Hr1 : ((c / 64) mod 64 = x1)%N).
    { rewrite Hq0. symmetry.
      apply (N.mod_unique _ 64 (N_of_ascii b0 - 224)); lia. }
    rewrite Hq1, Hr0, Hr1, Hs.
    destruct (N.ltb_spec c 128) as [Hk5|Hk5]; [lia|].
    destruct (N.ltb_spec c 2048) as [Hk6|Hk6]; [lia|].
    destruct (N.ltb_spec c 65536) as [Hk7|Hk7]; [|unfold c in *; lia].
    replace (224 + (N_of_ascii b0 - 224))%N with (N_of_ascii b0) by lia.
    now rewrite byte_of_ascii. }
  destruct (N.ltb_spec (N_of_ascii b0) 248) as [H5|H5]; [|discriminate].
  destruct s1 as [|b1 [|b2 [|b3 s4]]]; try discriminate.
  destruct (continuation b1) as [x1|] eqn:E1; [|discriminate].
  destruct (continuation b2) as [x2|] eqn:E2; [|discriminate].
  destruct (continuation b3) as [x3|] eqn:E3; [|discriminate].
  apply continuation_inv in E1 as [Hx1 ->].
  apply continuation_inv in E2 as [Hx2 ->].
  apply continuation_inv in E3 as [Hx3 ->].
  set (c := ((((N_of_ascii b0 - 240) * 64 + x1) * 64 + x2) * 64 + x3)%N).
  destruct (N.ltb_spec c 65536) as [H6|H6]; [discriminate|].
  destruct (N.ltb_spec c 1114112) as [H7|H7]; [|discriminate].
  simpl orb. cbv iota.
  intros H. apply push_inr in H as (t' & Ht' & ->).
  simpl in Hle. simpl. rewrite (IH s4 ltac:(lia) t' Ht').
  unfold encode_char.
  assert (Hq0 : (c / 64 = ((N_of_ascii b0 - 240) * 64 + x1) * 64 + x2)%N).
  { symmetry. apply (N.div_unique c 64 _ x3); unfold c; lia. }
  assert (Hr0 : (c mod 64 = x3)%N).
  { symmetry.
    apply (N.mod_unique c 64 (((N_of_ascii b0 - 240) * 64 + x1) * 64 + x2));
      unfold c; lia. }
  assert (Hq1 : (c / 4096 = (N_of_ascii b0 - 240) * 64 + x1)%N).
  { change 4096%N with (64 * 64)%N. rewrite <- N.Div0.div_div, Hq0.
    symmetry. apply (N.div_unique _ 64 _ x2); lia. }
  assert (Hr1 : ((c / 64) mod 64 = x2)%N).
  { rewrite Hq0. symmetry.
    apply (N.mod_unique _ 64 ((N_of_ascii b0 - 240) * 64 + x1)); lia. }
  assert (Hq2 : (c / 262144 = N_of_ascii b0 - 240)%N).
  { change 262144%N with (4096 * 64)%N. rewrite <- N.Div0.div_div, Hq1.
    symmetry. apply (N.div_unique _ 64 _ x1); lia. }
  assert (Hr2 : ((c / 4096) mod 64 = x1)%N).
  { rewrite Hq1. symmetry.
    apply (N.mod_unique _ 64 (N_of_ascii b0 - 240)); lia. }
  rewrite Hq2, Hr0, Hr1, Hr2.
  destruct (N.ltb_spec c 128) as [Hk8|Hk8]; [lia|].
  destruct (N.ltb_spec c 2048) as [Hk9|Hk9]; [lia|].
  destruct (N.ltb_spec c 65536) as [Hk10|Hk10]; [lia|].
  destruct (N.ltb_spec c 1114112) as [Hk11|Hk11]; [|lia].
  replace (240 + (N_of_ascii b0 - 240))%N with (N_of_ascii b0) by lia.
  now rewrite byte_of_ascii.
Qed.

(** Plain ASCII is its own UTF-8. *)
Lemma encode_plain (s : string) :
  Json.is_plain s = true -> encode (text_of s) = inr s.
Proof.
  induction s as [|c s IH]; simpl; [reflexivity|].
  intros H. apply andb_prop in H as [Hc Hs]. apply andb_prop in Hc as [_ Hc].
  unfold encode_char. rewrite Hc, (IH Hs). now rewrite byte_of_ascii.
Qed.



End Utf8Facts.

(** ** Facts on the Redis back end *)

Module RedisFacts.

Import Redis RedisStorage Json JsonFacts JsonRoundTrip Utf8Facts.

Lemma range_all (items : list string) : range items 0 (-1) = items.
Proof.
  unfold range. simpl.
  destruct items as [|x items]; [reflexivity|].
  set (len := Z.of_nat (length (x :: items))).
  assert (Hlen : (0 < len)%Z) by (unfold len; simpl; lia).
  replace (len + -1 <? 0)%Z with false by lia.
  replace (len <=? 0)%Z with false by lia.
  replace (len <=? len + -1)%Z with false by lia.
  simpl. replace (Z.to_nat (len + -1 - 0 + 1)) with (length (x :: items))
    by (unfold len; lia).
  now rewrite firstn_all.
Qed.

Lemma for_each_lift {S A B} (f : A -> outcome B) (l : list A) (s : S) :
  for_each (fun a => lift (f a)) l s = (traverse f l, s).
Proof.
  induction l as [|a l IH]; simpl; [reflexivity|].
  unfold bind, lift at 1. destruct (f a) as [e|b]; [reflexivity|].
  rewrite IH. destruct (traverse f l); reflexivity.
Qed.


Lemma lookup_delete_each (l : list string) (ks : keyspace) (key : string) :
  fold_left (fun m k => base.delete k m) l ks !! key =
  if decide (key ∈ l) then None else ks !! key.
Proof.
  revert ks. induction l as [|k l IH]; intros ks; simpl.
  - destruct (decide (key ∈ [])) as [H|H]; [inversion H | reflexivity].
  - rewrite IH. destruct (decide (key ∈ l)) as [Hin|Hin].
    + rewrite decide_True; [reflexivity | now right].
    + destruct (decide (key = k)) as [->|Hne].
      * rewrite lookup_delete_eq. rewrite decide_True; [reflexivity | now left].
      * rewrite lookup_delete_ne by auto.
        rewrite decide_False; [reflexivity|].
        intros H. apply elem_of_cons in H as [?|?]; auto.
Qed.


Section Calls.

Variable env : interpreter.

Variable glob : string -> string -> bool.

Variable self : t.

(** What the client returns for a key, it sends as that key. *)
Lemma reply_encode (b : string) (r : data) :
  reply (storage self) b = inr r -> encode env r = inr b.
Proof.
  unfold reply. destruct (decode_responses (storage self)).
  - destruct (Utf8.decode b) as [e|t] eqn:E; [discriminate|].
    intros H. inversion H; subst. simpl. now apply encode_decode.
  - intros H. now inversion H.
Qed.




(** What [get_list] does, in one equation. *)
Lemma get_list_run (key : string) (ks : keyspace) :
  get_list env self key ks =
  (match ks !! key with
   | None => inr []
   | Some (RList items) => read env self items
   | Some (RString _) => inl ResponseError
   end, ks).
Proof.
  unfold get_list, lrange, bind, lift, Py.get, ret, raise. simpl.
  destruct (ks !! key) as [[b|items]|]; try reflexivity.
  rewrite range_all. unfold read.
  destruct (traverse (reply (storage self)) items) as [e|replies];
    [reflexivity|].
  apply for_each_lift.
Qed.

(** What [append_val] does, in one equation. *)
Lemma append_val_run (key : string) (v : data) (ks : keyspace) :
  append_val env self key v ks =
  match dumps env v with
  | inl e => (inl e, ks)
  | inr s =>
      match ks !! key with
      | None => (inr tt, <[key := RList [s]]> ks)
      | Some (RList items) => (inr tt, <[key := RList (items ++ [s])]> ks)
      | Some (RString _) => (inl ResponseError, ks)
      end
  end.
Proof.
  unfold append_val, rpush, bind, lift, Py.get, put, ret, raise.
  destruct (dumps env v) as [e|s] eqn:Es; [reflexivity|].
  destruct (decode_dumps env v s Es) as (Hp & _).
  simpl. rewrite (encode_plain s Hp).
  destruct (ks !! key) as [[b|items]|]; reflexivity.
Qed.

(** What [set_val] does, in one equation. *)
Lemma set_val_run (key : string) (v : data) (ks : keyspace) :
  set_val env self key v ks =
  match encode env v with
  | inl e => (inl e, ks)
  | inr b => (inr tt, <[key := RString b]> ks)
  end.
Proof.
  unfold set_val, Redis.set, bind, lift, Py.get, put, ret. simpl.
  destruct (encode env v); reflexivity.
Qed.

(** What [get_val] does, in one equation. *)
Lemma get_val_run (key : string) (ks : keyspace) :
  get_val env self key ks =
  (match ks !! key with
   | None => inr PNone
   | Some (RString b) => reply (storage self) b
   | Some (RList _) => inl ResponseError
   end, ks).
Proof.
  unfold get_val, Redis.get, bind, lift, Py.get, ret, raise. simpl.
  destruct (ks !! key) as [[b|items]|]; reflexivity.
Qed.

(** What the client's [keys] does, in one equation. *)
Lemma redis_keys_run (pattern : data) (p : string) (ks : keyspace) :
  encode env pattern = inr p ->
  Redis.keys env glob (storage self) pattern ks =
  (traverse (reply (storage self))
     (filter (fun key => glob p key = true) (map fst (map_to_list ks))),
   ks).
Proof.
  intros Hp. unfold Redis.keys, bind, lift, Py.get. now rewrite Hp.
Qed.

Lemma encode_star : encode env (PStr (text_of "*")) = inr "*".
Proof. reflexivity. Qed.

(** What [keys] does, in one equation. *)
Lemma keys_run (pattern : string) (ks : keyspace) :
  keys env glob self pattern ks =
  (traverse (reply (storage self))
     (filter (fun key => glob pattern key = true) (map fst (map_to_list ks))),
   ks).
Proof. now apply redis_keys_run. Qed.

(** Deleting keys one by one, as [keys()] returned them. *)
Lemma delete_run (key : string) (r : data) (ks : keyspace) :
  encode env r = inr key ->
  exists n,
    Redis.delete env (storage self) r ks = (inr (PInt n), base.delete key ks).
Proof.
  intros Hr. unfold Redis.delete, bind, lift, Py.get, put, ret. rewrite Hr.
  destruct (ks !! key) eqn:E; simpl; eauto.
  exists 0%Z. now rewrite delete_id.
Qed.

Lemma delete_each (l : list string) (rs : list data) :
  Forall2 (fun k r => encode env r = inr k) l rs ->
  forall ks, exists ns,
    for_each (Redis.delete env (storage self)) rs ks =
    (inr ns, fold_left (fun m k => base.delete k m) l ks).
Proof.
  induction 1 as [|k r l rs Hr _ IH]; intros ks; simpl.
  - eexists. reflexivity.
  - destruct (delete_run k r ks Hr) as [n Hn]. unfold bind at 1. rewrite Hn.
    destruct (IH (base.delete k ks)) as [ns Hns]. unfold bind. rewrite Hns.
    eexists. reflexivity.
Qed.

(** What [clear] does: when the client returns the keys, each is deleted;
    when it cannot return one of them, none is. *)
Lemma clear_run (ks : keyspace) :
  let l := filter (fun key => glob "*" key = true) (map fst (map_to_list ks)) in
  clear env glob self ks =
  match traverse (reply (storage self)) l with
  | inl e => (inl e, ks)
  | inr _ => (inr tt, fold_left (fun m k => base.delete k m) l ks)
  end.
Proof.
  intros l. unfold clear. unfold bind at 1.
  rewrite (redis_keys_run _ "*" ks encode_star). fold l.
  destruct (traverse (reply (storage self)) l) as [e|rs] eqn:E; [reflexivity|].
  assert (H : Forall2 (fun k r => encode env r = inr k) l rs).
  { apply traverse_Forall2 in E. eapply Forall2_impl; [exact E|].
    intros k r. apply reply_encode. }
  destruct (delete_each l rs H ks) as [ns Hns].
  unfold bind.
  change (for_each (fun key : data => Redis.delete env (storage self) key))
    with (for_each (S := keyspace) (Redis.delete env (storage self))).
  now rewrite Hns.
Qed.


(** A call that does not write the key leaves it free. *)
Lemma step_keeps_none (key : string) (c : call) (ks : keyspace) :
  writes key c = false -> ks !! key = None ->
  step env glob self ks c !! key = None.
Proof.
  intros Hc Hk. destruct c as [p|k v|k|k v|k|]; simpl in *; unfold exec.
  - now rewrite keys_run.
  - rewrite set_val_run. apply String.eqb_neq in Hc.
    destruct (encode env v); simpl; auto. now rewrite lookup_insert_ne.
  - now rewrite get_val_run.
  - rewrite append_val_run. apply String.eqb_neq in Hc.
    destruct (dumps env v); simpl; auto.
    destruct (ks !! k) as [[b|items]|]; simpl; auto;
      now rewrite lookup_insert_ne.
  - now rewrite get_list_run.
  - rewrite clear_run.
    destruct (traverse _ _); simpl; [exact Hk|].
    rewrite lookup_delete_each. now destruct (decide (key ∈ _)).
Qed.

Lemma run_unwritten (key : string) (cs : list call) :
  Forall (fun c => writes key c = false) cs ->
  run env glob self ∅ cs !! key = None.
Proof.
  unfold run. induction cs as [|c cs IH] using rev_ind; intros Hcs.
  - apply lookup_empty.
  - apply Forall_app in Hcs as [Hcs Hc].
    apply Forall_cons in Hc as [Hc _].
    rewrite fold_left_app. simpl. apply step_keeps_none; auto.
Qed.





End Calls.

End RedisFacts.

(** ** Facts on what the client sends and returns *)

Module ClientFacts.

Import Redis RedisStorage Json JsonRoundTrip Utf8Facts RedisFacts.








Section Clearing.

Variable env : interpreter.
Variable glob : string -> string -> bool.
Variable self : RedisStorage.t.

Hypothesis glob_all : forall key, glob "*" key = true.



End Clearing.

End ClientFacts.

(** ** Facts on the keys of the in-memory back end *)

Module KeysFacts.

Import InMemoryStorage InMemoryFacts.

Lemma keys_set {V} (key k : string) (v : V) (d : dict V) :
  key ∈ Dict.keys (Dict.set k v d) <-> key = k \/ key ∈ Dict.keys d.
Proof.
  rewrite <- !DictFacts.contains_keys, !DictFacts.contains_lookup.
  destruct (decide (key = k)) as [->|Hne].
  - rewrite DictFacts.lookup_set_eq. split; eauto.
  - rewrite DictFacts.lookup_set_ne by auto. tauto.
Qed.

(** The keys after a call that does not clear: those there were, and the
    key the call writes. *)
Lemma step_keys (key : string) (c : call) (w : world) :
  is_clear c = false ->
  key ∈ Dict.keys (storage (self (step w c))) <->
  key ∈ Dict.keys (storage (self w)) \/ writes key c = true.
Proof.
  intros Hc. destruct w as [h [n d]].
  destruct c as [|k v|k|k v|k|]; simpl in *; try discriminate.
  - split; [auto | intros [?|?]; [auto | discriminate]].
  - rewrite keys_set, String.eqb_eq. tauto.
  - unfold exec, get_val, bind, get_storage. simpl.
    destruct (Dict.lookup k d); simpl;
      (split; [auto | intros [?|?]; [auto | discriminate]]).
  - rewrite String.eqb_eq.
    unfold exec, append_val, setdefault, bind, on_heap, get_storage,
      set_storage, Heap.alloc, Heap.append, ret. simpl.
    destruct (Dict.lookup k d) as [target|] eqn:Hk; simpl.
    + assert (Hin : k ∈ Dict.keys d).
      { apply DictFacts.contains_keys, DictFacts.contains_lookup. eauto. }
      assert (Hd : key ∈ Dict.keys d <-> key ∈ Dict.keys d \/ key = k).
      { split; [auto | intros [?| ->]; auto]. }
      destruct target as [| | | | | |l]; simpl; auto.
      destruct ((h ++ [OList []]) !! l) as [[vs|dd]|]; simpl; auto.
    + rewrite lookup_alloc. simpl. rewrite keys_set. tauto.
  - unfold exec, get_list, bind, on_heap, get_storage, Heap.alloc, ret.
    simpl. destruct (Dict.lookup k d); simpl;
      (split; [auto | intros [?|?]; [auto | discriminate]]).
Qed.

Lemma run_keys (key : string) (h : heap) (config : val) (cs : list call) :
  Forall (fun c => is_clear c = false) cs ->
  key ∈ Dict.keys (storage (self (run (fresh h config) cs))) <->
  Exists (fun c => writes key c = true) cs.
Proof.
  unfold run. induction cs as [|c cs IH] using rev_ind; intros Hcs.
  - simpl. split; intros H; inversion H.
  - apply Forall_app in Hcs as [Hcs Hc].
    apply Forall_cons in Hc as [Hc _].
    rewrite fold_left_app. simpl. rewrite step_keys by exact Hc.
    rewrite IH by exact Hcs. rewrite Exists_app, Exists_cons, Exists_nil.
    tauto.
Qed.

End KeysFacts.

(** ** Facts on the factory *)

Module FactoryFacts.

Lemma dict_of_ref (h : heap) (v : val) (d : dict val) :
  Heap.dict_of h v = Some d ->
  exists l, v = VRef l /\ h !! l = Some (ODict d).
Proof.
  destruct v as [| | | | | |l]; simpl; try discriminate.
  destruct (h !! l) as [[vs|d']|] eqn:E; try discriminate.
  intros H. inversion H; subst. eauto.
Qed.



(** The factory, on a descriptor that names the Redis back end only. *)
Lemma storage_redis redis h cfg index d rc rd :
  Heap.dict_of h cfg = Some d ->
  Dict.contains "dict" d = false ->
  Dict.lookup "redis" d = Some rc ->
  Heap.dict_of h rc = Some rd ->
  exists l,
    rc = VRef l /\
    storage redis cfg index h =
    (built redis (Dict.set "db" index rd),
     <[l := ODict (Dict.set "db" index rd)]> h).
Proof.
  intros Hcfg Hd Hrc Hrd.
  apply dict_of_ref in Hcfg as (lc & -> & Hlc).
  apply dict_of_ref in Hrd as (l & -> & Hl).
  exists l. split; [reflexivity|].
  assert (Hr : Dict.contains "redis" d = true).
  { apply DictFacts.contains_lookup. eauto. }
  assert (Hlt : l < length h) by (eapply lookup_lt_Some; eauto).
  unfold storage, bind, Heap.contains, Heap.getitem, Heap.setitem.
  rewrite Hlc, Hd. simpl. rewrite Hlc, Hr. simpl. rewrite Hlc, Hrc.
  simpl. rewrite Hl. simpl.
  assert (Hrc' : exists d', <[l := ODict (Dict.set "db" index rd)]> h !! lc
                            = Some (ODict d') /\
                            Dict.lookup "redis" d' = Some (VRef l)).
  { destruct (decide (lc = l)) as [->|Hne].
    - rewrite list_lookup_insert_eq by exact Hlt.
      eexists. split; [reflexivity|].
      rewrite Hl in Hlc. inversion Hlc; subst.
      rewrite DictFacts.lookup_set_ne; [exact Hrc | discriminate].
    - rewrite list_lookup_insert_ne by auto. eauto. }
  destruct Hrc' as (d' & -> & ->).
  unfold RedisStorage.init, built. destruct redis as [lib|]; simpl;
    [|reflexivity].
  unfold bind, Redis.connect, ret. simpl.
  rewrite list_lookup_insert_eq by exact Hlt.
  now destruct (Redis.construct lib (Dict.set "db" index rd)).
Qed.

(** The client keeps the keywords it was built with. *)
Lemma construct_kwargs lib kwargs client :
  Redis.construct lib kwargs = inr client ->
  Redis.connection_kwargs client = kwargs.
Proof.
  unfold Redis.construct. destruct (Redis.refuses lib kwargs); [discriminate|].
  destruct (existsb _ _); [discriminate|].
  destruct (Dict.lookup "decode_responses" kwargs) as [v|].
  - destruct (Redis.truth v); [discriminate|]. intros H. now inversion H.
  - intros H. now inversion H.
Qed.

End FactoryFacts.

(** ** The storage contract *)

Import InMemoryFacts RedisFacts ClientFacts JsonRoundTrip FactoryFacts KeysFacts.







(** C3, as amended.  For a key that no [set_val] and no [append_val] was
    called on, [get_val] raises [KeyError] on the in-memory back end; on
    the Redis back end it returns [None]. *)
Theorem get_val_unwritten :
  (forall (h : heap) (config : val) (key : string)
          (cs : list InMemoryStorage.call),
     Forall (fun c => InMemoryStorage.writes key c = false) cs ->
     eval (InMemoryStorage.get_val key)
       (InMemoryStorage.run (InMemoryStorage.fresh h config) cs)
     = inl (KeyError key)) /\
  (forall (env : interpreter) (glob : string -> string -> bool)
          (self : RedisStorage.t) (key : string)
          (cs : list RedisStorage.call),
     Forall (fun c => RedisStorage.writes key c = false) cs ->
     eval (RedisStorage.get_val env self key)
       (RedisStorage.run env glob self ∅ cs)
     = inr PNone).
Proof.
  split.
  - intros h config key cs Hcs.
    pose proof (run_absent key h config cs Hcs) as Ha.
    unfold InMemoryStorage.absent in Ha.
    unfold eval, InMemoryStorage.get_val, InMemoryStorage.get_storage, bind.
    simpl. now rewrite Ha.
  - intros env glob self key cs Hcs. unfold eval.
    now rewrite get_val_run, (run_unwritten env glob self key cs Hcs).
Qed.

Lemma get_val_unwritten_witness :
  eval (InMemoryStorage.get_val "h2")
    (InMemoryStorage.run (InMemoryStorage.fresh [] VNone)
       [InMemoryStorage.AppendVal "h1" (VInt 42);
        InMemoryStorage.SetVal "h3" (VStr "x")])
  = inl (KeyError "h2").
Proof.
  apply (proj1 get_val_unwritten). repeat constructor.
Defined.

(** C3 as stated fails on the in-memory back end: after [append_val] alone
    the key is in the dict, and [get_val] returns the list. *)
Lemma get_val_unwritten_counterexample :
  InMemoryStorage.sets "h1" (InMemoryStorage.AppendVal "h1" (VInt 42)) = false /\
  eval (InMemoryStorage.get_val "h1")
    (InMemoryStorage.run (InMemoryStorage.fresh [] VNone)
       [InMemoryStorage.AppendVal "h1" (VInt 42)])
  = inr (VRef 0).
Proof. split; reflexivity. Qed.







(** C6.  For a key that no [append_val] and no [set_val] was called on,
    [get_list] returns an empty list and does not raise, on both back
    ends. *)
Theorem get_list_unwritten :
  (forall (h : heap) (config : val) (key : string)
          (cs : list InMemoryStorage.call),
     Forall (fun c => InMemoryStorage.writes key c = false) cs ->
     let w := InMemoryStorage.run (InMemoryStorage.fresh h config) cs in
     exists v,
       eval (InMemoryStorage.get_list key) w = inr v /\
       Heap.list_of
         (InMemoryStorage.objects (exec (InMemoryStorage.get_list key) w)) v
       = Some []) /\
  (forall (env : interpreter) (glob : string -> string -> bool)
          (self : RedisStorage.t) (key : string)
          (cs : list RedisStorage.call),
     Forall (fun c => RedisStorage.writes key c = false) cs ->
     eval (RedisStorage.get_list env self key)
       (RedisStorage.run env glob self ∅ cs) = inr []).
Proof.
  split.
  - intros h config key cs Hcs w.
    apply get_list_absent. now apply run_absent.
  - intros env glob self key cs Hcs. unfold eval.
    now rewrite get_list_run, (run_unwritten env glob self key cs Hcs).
Qed.

Lemma get_list_unwritten_witness :
  eval (RedisStorage.get_list cpython plain_backend "h2")
    (RedisStorage.run cpython glob_star plain_backend ∅
       [RedisStorage.AppendVal "h1" entry_42;
        RedisStorage.AppendVal "h1" entry_7;
        RedisStorage.Clear]) = inr [].
Proof.
  apply (proj2 get_list_unwritten). repeat constructor.
Defined.







(** C9, as amended.  On the in-memory back end [keys()] returns the keys
    of the dict: over the calls made since the back end was new, none of
    them [clear()], a key is returned if and only if one of the calls is a
    [set_val] or an [append_val] on that key. *)
Theorem keys_are_written_keys (h : heap) (config : val)
    (cs : list InMemoryStorage.call) :
  Forall (fun c => InMemoryStorage.is_clear c = false) cs ->
  exists ks,
    eval InMemoryStorage.keys
      (InMemoryStorage.run (InMemoryStorage.fresh h config) cs) = inr ks /\
    forall key,
      key ∈ ks <-> Exists (fun c => InMemoryStorage.writes key c = true) cs.
Proof.
  intros Hcs. eexists. split; [reflexivity|].
  intros key. now apply run_keys.
Qed.

Lemma keys_are_written_keys_witness :
  exists ks,
    eval InMemoryStorage.keys
      (InMemoryStorage.run (InMemoryStorage.fresh [] VNone)
         [InMemoryStorage.SetVal "h3" (VStr "x");
          InMemoryStorage.AppendVal "h1" (VInt 42)]) = inr ks /\
    forall key,
      key ∈ ks <->
      Exists (fun c => InMemoryStorage.writes key c = true)
        [InMemoryStorage.SetVal "h3" (VStr "x");
         InMemoryStorage.AppendVal "h1" (VInt 42)].
Proof.
  apply (keys_are_written_keys [] VNone). repeat constructor.
Defined.

(** C9 as stated fails: a key that only [append_val] was called on is
    among the keys. *)
Lemma keys_are_written_keys_counterexample :
  InMemoryStorage.sets "h1" (InMemoryStorage.AppendVal "h1" (VInt 42)) = false /\
  eval InMemoryStorage.keys
    (InMemoryStorage.run (InMemoryStorage.fresh [] VNone)
       [InMemoryStorage.AppendVal "h1" (VInt 42)]) = inr ["h1"].
Proof. split; reflexivity. Qed.

(** C10, as amended.  When the descriptor contains ["redis"] and not
    ["dict"], and the parameters under ["redis"] are a dict, the factory
    writes [index] under ["db"] in that dict, the caller's own, before it
    builds the back end, and whether or not it can build it; the heap is
    changed unless ["db"] was [index] already. *)
Theorem storage_writes_db (redis : option Redis.library) (h : heap)
    (cfg index rc : val) (d rd : dict val) :
  Heap.dict_of h cfg = Some d ->
  Dict.contains "dict" d = false ->
  Dict.lookup "redis" d = Some rc ->
  Heap.dict_of h rc = Some rd ->
  let h' := exec (storage redis cfg index) h in
  Heap.dict_of h' rc = Some (Dict.set "db" index rd) /\
  Dict.lookup "db" (Dict.set "db" index rd) = Some index /\
  (Dict.lookup "db" rd <> Some index -> h' <> h).
Proof.
  intros Hcfg Hd Hrc Hrd h'.
  destruct (storage_redis redis h cfg index d rc rd Hcfg Hd Hrc Hrd)
    as (l & -> & Hrun).
  assert (Hh' : h' = <[l := ODict (Dict.set "db" index rd)]> h).
  { unfold h', exec. now rewrite Hrun. }
  apply dict_of_ref in Hrd as (l' & Hl' & Hl). inversion Hl'; subst l'.
  assert (Hlt : l < length h) by (eapply lookup_lt_Some; eauto).
  rewrite Hh'. repeat split.
  - simpl. now rewrite list_lookup_insert_eq by exact Hlt.
  - apply DictFacts.lookup_set_eq.
  - intros Hdb Heq.
    assert (H : <[l := ODict (Dict.set "db" index rd)]> h !! l = h !! l)
      by now rewrite Heq.
    rewrite list_lookup_insert_eq in H by exact Hlt. rewrite Hl in H.
    inversion H as [H']. apply Hdb.
    rewrite <- H'. apply DictFacts.lookup_set_eq.
Qed.

Lemma storage_writes_db_witness :
  let h' := exec (storage None (VRef 0) (VInt 3)) redis_directive in
  Heap.dict_of h' (VRef 1)
  = Some (Dict.set "db" (VInt 3) [("host", VStr "localhost")]) /\
  Dict.lookup "db" (Dict.set "db" (VInt 3) [("host", VStr "localhost")])
  = Some (VInt 3) /\
  (Dict.lookup "db" [("host", VStr "localhost")] <> Some (VInt 3) ->
   h' <> redis_directive).
Proof.
  apply (storage_writes_db None redis_directive (VRef 0) (VInt 3) (VRef 1)
           [("redis", VRef 1)] [("host", VStr "localhost")]);
    reflexivity.
Defined.

(** C10 as stated fails on a descriptor with both directives: the factory
    takes the in-memory branch and writes nothing. *)
Lemma storage_writes_db_counterexample :
  Heap.contains "redis" (VRef 0) both_directives = (inr true, both_directives) /\
  exec (storage (Some redis_py) (VRef 0) (VInt 3)) both_directives
  = both_directives /\
  Heap.dict_of (exec (storage (Some redis_py) (VRef 0) (VInt 3))
                  both_directives) (VRef 2)
  = Some [].
Proof. split; [reflexivity|]. split; reflexivity. Qed.

(** * Further properties of the storage module *)

(** ** More facts on dicts *)

Module DictOrder.

Lemma keys_set_present {V} (key : string) (v : V) (d : dict V) :
  is_Some (Dict.lookup key d) -> Dict.keys (Dict.set key v d) = Dict.keys d.
Proof.
  induction d as [|[k w] d IH]; simpl.
  - intros [? ?]. discriminate.
  - destruct (String.eqb key k) eqn:E; simpl.
    + reflexivity.
    + intros H. now rewrite IH.
Qed.

Lemma keys_set_NoDup {V} (key : string) (v : V) (d : dict V) :
  NoDup (Dict.keys d) -> NoDup (Dict.keys (Dict.set key v d)).
Proof.
  intros Hd. destruct (Dict.lookup key d) as [x|] eqn:E.
  - rewrite keys_set_present; eauto.
  - rewrite DictFacts.set_fresh by exact E. unfold Dict.keys.
    rewrite map_app. simpl. apply NoDup_app. repeat split.
    + exact Hd.
    + intros k Hk Hin. apply list_elem_of_singleton in Hin. subst k.
      now apply DictFacts.lookup_None_keys in E.
    + apply NoDup_singleton.
Qed.

Lemma of_pairs_keys_NoDup {V} (pairs : list (string * V)) :
  NoDup (Dict.keys (Dict.of_pairs pairs)).
Proof.
  unfold Dict.of_pairs.
  enough (G : forall acc : dict V, NoDup (Dict.keys acc) ->
            NoDup (Dict.keys
                     (fold_left (fun d kv => Dict.set (fst kv) (snd kv) d)
                        pairs acc))).
  { apply G. constructor. }
  induction pairs as [|[k v] pairs IH]; intros acc Hacc; simpl; auto.
  apply IH. now apply keys_set_NoDup.
Qed.

Lemma lookup_set {V} (key key' : string) (v : V) (d : dict V) :
  Dict.lookup key' (Dict.set key v d) =
  if String.eqb key' key then Some v else Dict.lookup key' d.
Proof.
  destruct (String.eqb key' key) eqn:E.
  - apply String.eqb_eq in E. subst. apply DictFacts.lookup_set_eq.
  - apply String.eqb_neq in E. apply DictFacts.lookup_set_ne. congruence.
Qed.

End DictOrder.

(** ** The in-memory back end: sharing, errors, invariants *)

Module InMemoryMore.

Import InMemoryStorage InMemoryFacts DictOrder.

(** What [append_val] does on a key that holds no list. *)
Lemma append_val_not_a_list (w : world) (key : string) (x v : val) :
  Dict.lookup key (storage (self w)) = Some x ->
  (forall l, x = VRef l -> exists d, objects w !! l = Some (ODict d)) ->
  append_val key v w =
  (inl AttributeError, World (objects w ++ [OList []]) (self w)).
Proof.
  destruct w as [h [n d]]. simpl. intros Hx Hscalar.
  unfold append_val, setdefault, bind, on_heap, get_storage, Heap.alloc,
    Heap.append, ret. simpl. rewrite Hx. simpl.
  destruct x as [| | | | | |l]; try reflexivity.
  destruct (Hscalar l eq_refl) as [dd Hl].
  now rewrite (lookup_alloc_old _ _ _ _ Hl).
Qed.

(** The dict of the instance keeps its keys distinct. *)
Lemma step_NoDup (w : world) (c : call) :
  NoDup (Dict.keys (storage (self w))) ->
  NoDup (Dict.keys (storage (self (step w c)))).
Proof.
  intros Hw. destruct w as [h [n d]].
  destruct c as [|k v|k|k v|k|]; simpl in *.
  - exact Hw.
  - now apply keys_set_NoDup.
  - unfold exec, get_val, bind, get_storage. simpl.
    destruct (Dict.lookup k d); exact Hw.
  - unfold exec, append_val, setdefault, bind, on_heap, get_storage,
      set_storage, Heap.alloc, Heap.append, ret. simpl.
    destruct (Dict.lookup k d) as [target|] eqn:Hk; simpl.
    + destruct target as [| | | | | |l]; simpl; auto.
      destruct ((h ++ [OList []]) !! l) as [[vs|dd]|]; simpl; auto.
    + rewrite lookup_alloc. simpl. now apply keys_set_NoDup.
  - unfold exec, get_list, bind, on_heap, get_storage, Heap.alloc, ret.
    simpl. destruct (Dict.lookup k d); exact Hw.
  - constructor.
Qed.

End InMemoryMore.

Import InMemoryFacts InMemoryMore DictOrder.

(** X1.  [append_val] on a key that holds a value of the model other than
    a list ([None], a boolean, an integer, a string, bytes, a tuple or a
    dict) raises [AttributeError]; the dict of the instance and the
    objects of the heap are as they were. *)
Theorem append_val_on_scalar (w : InMemoryStorage.world) (key : string)
    (x v : val) :
  Dict.lookup key (InMemoryStorage.storage (InMemoryStorage.self w)) = Some x ->
  (forall l, x = VRef l ->
             exists d, InMemoryStorage.objects w !! l = Some (ODict d)) ->
  let w' := exec (InMemoryStorage.append_val key v) w in
  eval (InMemoryStorage.append_val key v) w = inl AttributeError /\
  InMemoryStorage.self w' = InMemoryStorage.self w /\
  forall r o, InMemoryStorage.objects w !! r = Some o ->
              InMemoryStorage.objects w' !! r = Some o.
Proof.
  intros Hx Hs w'. unfold w', eval, exec.
  rewrite (append_val_not_a_list w key x v Hx Hs). simpl.
  split; [reflexivity|]. split; [reflexivity|].
  intros r o Hr. now apply lookup_alloc_old.
Qed.

Lemma append_val_on_scalar_witness :
  let w := InMemoryStorage.run (InMemoryStorage.fresh [] VNone)
             [InMemoryStorage.SetVal "h3" (VStr "x")] in
  let w' := exec (InMemoryStorage.append_val "h3" (VInt 1)) w in
  eval (InMemoryStorage.append_val "h3" (VInt 1)) w = inl AttributeError /\
  InMemoryStorage.self w' = InMemoryStorage.self w /\
  forall r o, InMemoryStorage.objects w !! r = Some o ->
              InMemoryStorage.objects w' !! r = Some o.
Proof.
  apply (append_val_on_scalar _ "h3" (VStr "x") (VInt 1)).
  - reflexivity.
  - intros l H. discriminate.
Defined.

(** X2.  [get_list] hands out the stored list itself, not a copy: an entry
    appended afterwards shows in the list that was returned before. *)
Theorem get_list_returns_the_stored_list (w : InMemoryStorage.world)
    (key : string) (xs : list val) (e : val) :
  InMemoryStorage.holds_list key w xs ->
  exists v,
    eval (InMemoryStorage.get_list key) w = inr v /\
    let w1 := exec (InMemoryStorage.get_list key) w in
    Heap.list_of (InMemoryStorage.objects w1) v = Some xs /\
    Heap.list_of
      (InMemoryStorage.objects (exec (InMemoryStorage.append_val key e) w1)) v
    = Some (xs ++ [e]).
Proof.
  destruct w as [h [n d]]. intros (r & Hd & Hr). simpl in Hd, Hr.
  exists (VRef r).
  unfold eval, exec, InMemoryStorage.get_list, InMemoryStorage.append_val,
    InMemoryStorage.setdefault, bind, InMemoryStorage.on_heap,
    InMemoryStorage.get_storage, Heap.alloc, Heap.append, ret. simpl.
  rewrite Hd. simpl. rewrite Hd. simpl.
  pose proof (lookup_alloc_old h _ (OList []) r Hr) as H1.
  pose proof (lookup_alloc_old _ _ (OList []) r H1) as H2.
  rewrite H2. simpl. rewrite H1.
  split; [reflexivity|]. split; [reflexivity|].
  rewrite list_lookup_insert_eq; [reflexivity|].
  eapply lookup_lt_Some; eauto.
Qed.

Lemma get_list_returns_the_stored_list_witness :
  exists v,
    eval (InMemoryStorage.get_list "h1") one_list = inr v /\
    let w1 := exec (InMemoryStorage.get_list "h1") one_list in
    Heap.list_of (InMemoryStorage.objects w1) v = Some [VInt 42] /\
    Heap.list_of
      (InMemoryStorage.objects
         (exec (InMemoryStorage.append_val "h1" (VInt 7)) w1)) v
    = Some ([VInt 42] ++ [VInt 7]).
Proof.
  apply (get_list_returns_the_stored_list one_list "h1" [VInt 42] (VInt 7)).
  exists 0. split; reflexivity.
Defined.

(** X3.  On a key that holds nothing, [get_list] returns a new empty list
    and stores nothing: the key stays free, and a later [append_val]
    starts a list of its own, which leaves the list returned before
    empty. *)
Theorem get_list_default_is_not_stored (w : InMemoryStorage.world)
    (key : string) (e : val) :
  InMemoryStorage.absent key w ->
  exists v,
    eval (InMemoryStorage.get_list key) w = inr v /\
    let w1 := exec (InMemoryStorage.get_list key) w in
    InMemoryStorage.absent key w1 /\
    let w2 := exec (InMemoryStorage.append_val key e) w1 in
    Heap.list_of (InMemoryStorage.objects w2) v = Some [] /\
    InMemoryStorage.listing key w2 = Some [e].
Proof.
  destruct w as [h [n d]]. unfold InMemoryStorage.absent. simpl. intros Hd.
  exists (VRef (length h)).
  assert (Hw1 : InMemoryStorage.get_list key (InMemoryStorage.World h
                  (InMemoryStorage.Build n d)) =
                (inr (VRef (length h)),
                 InMemoryStorage.World (h ++ [OList []])
                   (InMemoryStorage.Build n d))).
  { unfold InMemoryStorage.get_list, bind, InMemoryStorage.on_heap,
      InMemoryStorage.get_storage, Heap.alloc, ret. simpl. now rewrite Hd. }
  unfold eval, exec. rewrite Hw1. simpl.
  split; [reflexivity|]. split; [exact Hd|].
  set (w1 := InMemoryStorage.World (h ++ [OList []])
               (InMemoryStorage.Build n d)).
  assert (Ha : InMemoryStorage.absent key w1) by exact Hd.
  destruct (append_val_absent key e w1 Ha) as [_ Hl].
  split; [|now apply listing_list].
  unfold exec in *.
  unfold InMemoryStorage.append_val, InMemoryStorage.setdefault, bind,
    InMemoryStorage.on_heap, InMemoryStorage.get_storage,
    InMemoryStorage.set_storage, Heap.alloc, Heap.append, ret. simpl.
  rewrite Hd. simpl. rewrite lookup_alloc. simpl.
  rewrite list_lookup_insert_ne by (rewrite length_app; simpl; lia).
  rewrite lookup_app_l by (rewrite length_app; simpl; lia).
  now rewrite lookup_alloc.
Qed.

Lemma get_list_default_is_not_stored_witness :
  exists v,
    eval (InMemoryStorage.get_list "h2") one_list = inr v /\
    let w1 := exec (InMemoryStorage.get_list "h2") one_list in
    InMemoryStorage.absent "h2" w1 /\
    let w2 := exec (InMemoryStorage.append_val "h2" (VInt 7)) w1 in
    Heap.list_of (InMemoryStorage.objects w2) v = Some [] /\
    InMemoryStorage.listing "h2" w2 = Some [VInt 7].
Proof.
  apply (get_list_default_is_not_stored one_list "h2" (VInt 7)). reflexivity.
Defined.

(** X4.  [clear] gives the instance a new dict and touches no list: a list
    handed out before keeps its elements, and the key starts a new list
    with the next [append_val]. *)
Theorem clear_keeps_returned_lists (w : InMemoryStorage.world)
    (key : string) (xs : list val) (e : val) :
  InMemoryStorage.holds_list key w xs ->
  exists v,
    eval (InMemoryStorage.get_list key) w = inr v /\
    let w1 := exec InMemoryStorage.clear
                (exec (InMemoryStorage.get_list key) w) in
    let w2 := exec (InMemoryStorage.append_val key e) w1 in
    Heap.list_of (InMemoryStorage.objects w2) v = Some xs /\
    InMemoryStorage.listing key w2 = Some [e].
Proof.
  destruct w as [h [n d]]. intros (r & Hd & Hr). simpl in Hd, Hr.
  exists (VRef r).
  assert (Hw1 : InMemoryStorage.get_list key (InMemoryStorage.World h
                  (InMemoryStorage.Build n d)) =
                (inr (VRef r),
                 InMemoryStorage.World (h ++ [OList []])
                   (InMemoryStorage.Build n d))).
  { unfold InMemoryStorage.get_list, bind, InMemoryStorage.on_heap,
      InMemoryStorage.get_storage, Heap.alloc, ret. simpl. now rewrite Hd. }
  unfold eval, exec at 2 3 5 6. rewrite Hw1. simpl.
  split; [reflexivity|].
  set (w1 := InMemoryStorage.World (h ++ [OList []])
               (InMemoryStorage.Build n [])).
  assert (Ha : InMemoryStorage.absent key w1) by reflexivity.
  destruct (append_val_absent key e w1 Ha) as [_ Hl].
  split; [|now apply listing_list].
  pose proof (lookup_lt_Some _ _ _ Hr) as Hlt.
  unfold exec, InMemoryStorage.append_val, InMemoryStorage.setdefault, bind,
    InMemoryStorage.on_heap, InMemoryStorage.get_storage,
    InMemoryStorage.set_storage, Heap.alloc, Heap.append, ret. simpl.
  rewrite lookup_alloc. simpl.
  rewrite list_lookup_insert_ne by (rewrite length_app; simpl; lia).
  rewrite !lookup_app_l by (rewrite ?length_app; simpl; lia).
  now rewrite Hr.
Qed.

Lemma clear_keeps_returned_lists_witness :
  exists v,
    eval (InMemoryStorage.get_list "h1") one_list = inr v /\
    let w1 := exec InMemoryStorage.clear
                (exec (InMemoryStorage.get_list "h1") one_list) in
    let w2 := exec (InMemoryStorage.append_val "h1" (VInt 7)) w1 in
    Heap.list_of (InMemoryStorage.objects w2) v = Some [VInt 42] /\
    InMemoryStorage.listing "h1" w2 = Some [VInt 7].
Proof.
  apply (clear_keeps_returned_lists one_list "h1" [VInt 42] (VInt 7)).
  exists 0. split; reflexivity.
Defined.

(** X5.  Whatever calls were made on an in-memory back end since it was
    new, [keys()] returns no key twice. *)
Theorem keys_are_distinct (h : heap) (config : val)
    (cs : list InMemoryStorage.call) :
  exists ks,
    eval InMemoryStorage.keys
      (InMemoryStorage.run (InMemoryStorage.fresh h config) cs) = inr ks /\
    NoDup ks.
Proof.
  eexists. split; [reflexivity|]. simpl.
  unfold InMemoryStorage.run.
  induction cs as [|c cs IH] using rev_ind.
  - constructor.
  - rewrite fold_left_app. simpl. now apply step_NoDup.
Qed.

(** X6.  A call that writes one key leaves every other key bound to the
    value it was bound to, and changes no object but the list under the
    key it writes: [set_val] changes no object at all, and [append_val]
    changes at most the list its key holds, which gets the new entry.
    Another key shows a change only when it holds that very list. *)
Theorem other_keys_keep_their_value (w : InMemoryStorage.world)
    (key key' : string) (v : val) :
  key <> key' ->
  let w1 := exec (InMemoryStorage.set_val key v) w in
  let w2 := exec (InMemoryStorage.append_val key v) w in
  (eval (InMemoryStorage.get_val key') w1
   = eval (InMemoryStorage.get_val key') w /\
   InMemoryStorage.objects w1 = InMemoryStorage.objects w) /\
  (eval (InMemoryStorage.get_val key') w2
   = eval (InMemoryStorage.get_val key') w /\
   forall r o,
     InMemoryStorage.objects w !! r = Some o ->
     InMemoryStorage.objects w2 !! r = Some o \/
     (Dict.lookup key (InMemoryStorage.storage (InMemoryStorage.self w))
      = Some (VRef r) /\
      exists xs, o = OList xs /\
                 InMemoryStorage.objects w2 !! r = Some (OList (xs ++ [v])))).
Proof.
  intros Hne. destruct w as [h [n d]]. cbv zeta. split; [split|split].
  - unfold eval, exec, InMemoryStorage.get_val, InMemoryStorage.set_val,
      InMemoryStorage.get_storage, InMemoryStorage.set_storage, bind.
    simpl. rewrite DictFacts.lookup_set_ne by exact Hne.
    destruct (Dict.lookup key' d); reflexivity.
  - reflexivity.
  - unfold eval, exec, InMemoryStorage.get_val, InMemoryStorage.append_val,
      InMemoryStorage.setdefault, bind, InMemoryStorage.on_heap,
      InMemoryStorage.get_storage, InMemoryStorage.set_storage, Heap.alloc,
      Heap.append, ret. simpl.
    destruct (Dict.lookup key d) as [target|] eqn:Hk; simpl.
    + destruct target as [| | | | | |l]; simpl;
        try (destruct (Dict.lookup key' d); reflexivity).
      destruct ((h ++ [OList []]) !! l) as [[vs|dd]|]; simpl;
        destruct (Dict.lookup key' d); reflexivity.
    + rewrite lookup_alloc. simpl.
      rewrite DictFacts.lookup_set_ne by exact Hne.
      destruct (Dict.lookup key' d); reflexivity.
  - intros r o Hr. simpl in Hr.
    pose proof (lookup_lt_Some _ _ _ Hr) as Hlt.
    pose proof (lookup_alloc_old h o (OList []) r Hr) as Hr'.
    unfold exec, InMemoryStorage.append_val,
      InMemoryStorage.setdefault, bind, InMemoryStorage.on_heap,
      InMemoryStorage.get_storage, InMemoryStorage.set_storage, Heap.alloc,
      Heap.append, ret. simpl.
    destruct (Dict.lookup key d) as [target|] eqn:Hk; simpl.
    + destruct target as [| | | | | |l]; simpl; auto.
      destruct ((h ++ [OList []]) !! l) as [[vs|dd]|] eqn:El; simpl; auto.
      destruct (decide (r = l)) as [->|Hrl].
      * right. split; [reflexivity|]. exists vs.
        rewrite El in Hr'. inversion Hr'; subst o. split; [reflexivity|].
        apply list_lookup_insert_eq. rewrite length_app. lia.
      * left. now rewrite list_lookup_insert_ne by auto.
    + rewrite lookup_alloc. simpl. left.
      now rewrite list_lookup_insert_ne by lia.
Qed.

Lemma other_keys_keep_their_value_witness :
  let w1 := exec (InMemoryStorage.set_val "h3" (VStr "x")) one_list in
  let w2 := exec (InMemoryStorage.append_val "h3" (VStr "x")) one_list in
  (eval (InMemoryStorage.get_val "h1") w1
   = eval (InMemoryStorage.get_val "h1") one_list /\
   InMemoryStorage.objects w1 = InMemoryStorage.objects one_list) /\
  (eval (InMemoryStorage.get_val "h1") w2
   = eval (InMemoryStorage.get_val "h1") one_list /\
   forall r o,
     InMemoryStorage.objects one_list !! r = Some o ->
     InMemoryStorage.objects w2 !! r = Some o \/
     (Dict.lookup "h3"
        (InMemoryStorage.storage (InMemoryStorage.self one_list))
      = Some (VRef r) /\
      exists xs, o = OList xs /\
                 InMemoryStorage.objects w2 !! r
                 = Some (OList (xs ++ [VStr "x"])))).
Proof.
  apply (other_keys_keep_their_value one_list "h3" "h1" (VStr "x")).
  discriminate.
Defined.

(** X7.  A second [set_val] on a key overwrites the first: [get_val]
    returns the second value, and [keys()] is what it was after the
    first. *)
Theorem set_val_overwrites (w : InMemoryStorage.world) (key : string)
    (v1 v2 : val) :
  eval (InMemoryStorage.set_val key v1 ;; InMemoryStorage.set_val key v2 ;;
        InMemoryStorage.get_val key) w = inr v2 /\
  eval InMemoryStorage.keys
    (exec (InMemoryStorage.set_val key v1 ;; InMemoryStorage.set_val key v2) w)
  = eval InMemoryStorage.keys (exec (InMemoryStorage.set_val key v1) w).
Proof.
  destruct w as [h [n d]].
  unfold eval, exec, InMemoryStorage.keys, InMemoryStorage.get_val,
    InMemoryStorage.set_val, InMemoryStorage.get_storage,
    InMemoryStorage.set_storage, bind, ret. simpl.
  rewrite DictFacts.lookup_set_eq. split; [reflexivity|].
  rewrite keys_set_present; [reflexivity|].
  rewrite DictFacts.lookup_set_eq. eauto.
Qed.

(** ** The factory: errors and the parameters of the client *)

Import FactoryFacts.

(** X8.  When the descriptor selects Redis and the client library is not
    installed, the factory raises [ImportError]; it builds no back end. *)
Theorem storage_without_client_library (h : heap) (cfg index rc : val)
    (d rd : dict val) :
  Heap.dict_of h cfg = Some d ->
  Dict.contains "dict" d = false ->
  Dict.lookup "redis" d = Some rc ->
  Heap.dict_of h rc = Some rd ->
  eval (storage None cfg index) h
  = inl (ImportError "redis-py is required to use Redis as storage.").
Proof.
  intros Hcfg Hd Hrc Hrd.
  destruct (storage_redis None h cfg index d rc rd Hcfg Hd Hrc Hrd)
    as (l & _ & Hrun).
  unfold eval. now rewrite Hrun.
Qed.

Lemma storage_without_client_library_witness :
  eval (storage None (VRef 0) (VInt 3)) redis_directive
  = inl (ImportError "redis-py is required to use Redis as storage.").
Proof.
  apply (storage_without_client_library redis_directive (VRef 0) (VInt 3)
           (VRef 1) [("redis", VRef 1)] [("host", VStr "localhost")]);
    reflexivity.
Defined.

(** X9.  When the descriptor selects Redis and what it holds under
    ["redis"] is not a dict (a scalar, or a list), the factory raises
    [TypeError] at the assignment of ["db"], and the heap is as it was. *)
Theorem storage_parameters_not_a_dict (redis : option Redis.library)
    (h : heap) (cfg index rc : val) (d : dict val) :
  Heap.dict_of h cfg = Some d ->
  Dict.contains "dict" d = false ->
  Dict.lookup "redis" d = Some rc ->
  (forall l, rc = VRef l -> exists vs, h !! l = Some (OList vs)) ->
  storage redis cfg index h = (inl TypeError, h).
Proof.
  intros Hcfg Hd Hrc Hscalar.
  apply dict_of_ref in Hcfg as (lc & -> & Hlc).
  assert (Hr : Dict.contains "redis" d = true).
  { apply DictFacts.contains_lookup. eauto. }
  unfold storage, bind, Heap.contains, Heap.getitem, Heap.setitem.
  rewrite Hlc, Hd. simpl. rewrite Hlc, Hr. simpl. rewrite Hlc, Hrc. simpl.
  destruct rc as [| | | | | |l]; try reflexivity.
  destruct (Hscalar l eq_refl) as [vs Hl]. now rewrite Hl.
Qed.

Lemma storage_parameters_not_a_dict_witness :
  storage (Some redis_py) (VRef 0) (VInt 3) [ODict [("redis", VNone)]]
  = (inl TypeError, [ODict [("redis", VNone)]]).
Proof.
  apply (storage_parameters_not_a_dict (Some redis_py) _ (VRef 0) (VInt 3)
           VNone [("redis", VNone)]); try reflexivity.
  intros l H. discriminate.
Defined.

(** X10.  When the constructor of the client accepts the keywords, the
    Redis back end the factory returns is named ["redis"], and its client
    was given the caller's parameters as they are, but for ["db"], which
    is [index] whatever the caller had put there. *)
Theorem storage_forwards_parameters (lib : Redis.library) (h : heap)
    (cfg index rc : val) (d rd : dict val) (client : Redis.StrictRedis) :
  Heap.dict_of h cfg = Some d ->
  Dict.contains "dict" d = false ->
  Dict.lookup "redis" d = Some rc ->
  Heap.dict_of h rc = Some rd ->
  Redis.construct lib (Dict.set "db" index rd) = inr client ->
  exists s,
    eval (storage (Some lib) cfg index) h = inr (Networked s) /\
    RedisStorage.name s = "redis" /\
    forall k,
      Dict.lookup k (Redis.connection_kwargs (RedisStorage.storage s)) =
      if String.eqb k "db" then Some index else Dict.lookup k rd.
Proof.
  intros Hcfg Hd Hrc Hrd Hc.
  destruct (storage_redis (Some lib) h cfg index d rc rd Hcfg Hd Hrc Hrd)
    as (l & _ & Hrun).
  eexists. unfold eval. rewrite Hrun. simpl. rewrite Hc.
  split; [reflexivity|]. split; [reflexivity|].
  intros k. simpl. rewrite (construct_kwargs lib _ client Hc).
  apply lookup_set.
Qed.

Lemma storage_forwards_parameters_witness :
  exists s,
    eval (storage (Some redis_py) (VRef 0) (VInt 3)) redis_directive
    = inr (Networked s) /\
    RedisStorage.name s = "redis" /\
    forall k,
      Dict.lookup k (Redis.connection_kwargs (RedisStorage.storage s)) =
      if String.eqb k "db" then Some (VInt 3)
      else Dict.lookup k [("host", VStr "localhost")].
Proof.
  apply (storage_forwards_parameters redis_py redis_directive (VRef 0)
           (VInt 3) (VRef 1) [("redis", VRef 1)] [("host", VStr "localhost")]
           (Redis.Client [("host", VStr "localhost"); ("db", VInt 3)] false));
    reflexivity.
Defined.

(** X11.  Two calls of the factory on one descriptor, with two indices,
    when the constructor of the client accepts the keywords both times:
    each back end has its own index under ["db"], although the second
    call overwrites, in the descriptor, what the first wrote. *)
Theorem storage_twice (lib : Redis.library) (h : heap) (cfg i j rc : val)
    (d rd : dict val) (c1 c2 : Redis.StrictRedis) :
  Heap.dict_of h cfg = Some d ->
  Dict.contains "dict" d = false ->
  Dict.lookup "redis" d = Some rc ->
  Heap.dict_of h rc = Some rd ->
  Redis.construct lib (Dict.set "db" i rd) = inr c1 ->
  Redis.construct lib (Dict.set "db" j (Dict.set "db" i rd)) = inr c2 ->
  let h1 := exec (storage (Some lib) cfg i) h in
  let h2 := exec (storage (Some lib) cfg j) h1 in
  exists s1 s2,
    eval (storage (Some lib) cfg i) h = inr (Networked s1) /\
    eval (storage (Some lib) cfg j) h1 = inr (Networked s2) /\
    Dict.lookup "db" (Redis.connection_kwargs (RedisStorage.storage s1))
    = Some i /\
    Dict.lookup "db" (Redis.connection_kwargs (RedisStorage.storage s2))
    = Some j /\
    Heap.dict_of h2 rc = Some (Dict.set "db" j (Dict.set "db" i rd)).
Proof.
  intros Hcfg Hd Hrc Hrd Hc1 Hc2 h1 h2.
  destruct (storage_redis (Some lib) h cfg i d rc rd Hcfg Hd Hrc Hrd)
    as (l & Hl & Hrun).
  assert (Hh1 : h1 = <[l := ODict (Dict.set "db" i rd)]> h).
  { unfold h1, exec. now rewrite Hrun. }
  pose proof Hcfg as Hcfg0. pose proof Hrd as Hrd0.
  apply dict_of_ref in Hcfg0 as (lc & Hc & Hlc).
  apply dict_of_ref in Hrd0 as (l' & Hl' & Hll).
  rewrite Hl in Hl'. inversion Hl'; subst l'.
  assert (Hlt : l < length h) by (eapply lookup_lt_Some; eauto).
  assert (Hrd1 : Heap.dict_of h1 rc = Some (Dict.set "db" i rd)).
  { rewrite Hh1, Hl. simpl. now rewrite list_lookup_insert_eq by exact Hlt. }
  assert (Hcfg1 : exists d1, Heap.dict_of h1 cfg = Some d1 /\
                             Dict.contains "dict" d1 = false /\
                             Dict.lookup "redis" d1 = Some rc).
  { rewrite Hh1, Hc. simpl. destruct (decide (lc = l)) as [->|Hne].
    - rewrite list_lookup_insert_eq by exact Hlt.
      eexists. split; [reflexivity|].
      rewrite Hll in Hlc. inversion Hlc; subst d. split.
      + destruct (Dict.contains "dict" (Dict.set "db" i rd)) eqn:E; auto.
        apply DictFacts.contains_lookup in E as [x Hx].
        rewrite DictFacts.lookup_set_ne in Hx by discriminate.
        assert (Dict.contains "dict" rd = true)
          by (apply DictFacts.contains_lookup; eauto).
        congruence.
      + rewrite DictFacts.lookup_set_ne by discriminate. exact Hrc.
    - rewrite list_lookup_insert_ne by auto. rewrite Hlc. eauto. }
  destruct Hcfg1 as (d1 & Hcfg1 & Hd1 & Hrc1).
  destruct (storage_redis (Some lib) h1 cfg j d1 rc _ Hcfg1 Hd1 Hrc1 Hrd1)
    as (l2 & Hl2 & Hrun2).
  rewrite Hl in Hl2. inversion Hl2; subst l2.
  do 2 eexists. unfold eval. rewrite Hrun. fold h1. rewrite Hrun2. simpl.
  rewrite Hc1, Hc2.
  split; [reflexivity|]. split; [reflexivity|]. simpl.
  rewrite (construct_kwargs lib _ c1 Hc1), (construct_kwargs lib _ c2 Hc2).
  split; [apply DictFacts.lookup_set_eq|].
  split; [apply DictFacts.lookup_set_eq|].
  unfold h2, exec. rewrite Hrun2, Hl. simpl.
  rewrite list_lookup_insert_eq; [reflexivity|].
  rewrite Hh1, length_insert. exact Hlt.
Qed.

Lemma storage_twice_witness :
  let h1 := exec (storage (Some redis_py) (VRef 0) (VInt 0)) redis_directive in
  let h2 := exec (storage (Some redis_py) (VRef 0) (VInt 1)) h1 in
  exists s1 s2,
    eval (storage (Some redis_py) (VRef 0) (VInt 0)) redis_directive
    = inr (Networked s1) /\
    eval (storage (Some redis_py) (VRef 0) (VInt 1)) h1
    = inr (Networked s2) /\
    Dict.lookup "db" (Redis.connection_kwargs (RedisStorage.storage s1))
    = Some (VInt 0) /\
    Dict.lookup "db" (Redis.connection_kwargs (RedisStorage.storage s2))
    = Some (VInt 1) /\
    Heap.dict_of h2 (VRef 1)
    = Some (Dict.set "db" (VInt 1)
              (Dict.set "db" (VInt 0) [("host", VStr "localhost")])).
Proof.
  apply (storage_twice redis_py redis_directive (VRef 0) (VInt 0) (VInt 1)
           (VRef 1) [("redis", VRef 1)] [("host", VStr "localhost")]
           (Redis.Client [("host", VStr "localhost"); ("db", VInt 0)] false)
           (Redis.Client [("host", VStr "localhost"); ("db", VInt 1)] false));
    reflexivity.
Defined.

(** ** The Redis back end: the codec, the kinds of value, the keys *)

Module CodecMore.

Import Json JsonFacts JsonRoundTrip.




End CodecMore.

Module RedisMore.

Import Redis RedisStorage Json RedisFacts CodecMore.

Section Frame.

Variable env : interpreter.
Variable self : RedisStorage.t.

(** A call that writes one key leaves what is under another. *)
Lemma append_val_other (key key' : string) (v : data) (ks : keyspace) :
  key <> key' -> exec (append_val env self key v) ks !! key' = ks !! key'.
Proof.
  intros Hne. unfold exec. rewrite append_val_run.
  destruct (dumps env v); simpl; auto.
  destruct (ks !! key) as [[b|items]|]; simpl; auto;
    now rewrite lookup_insert_ne.
Qed.

Lemma set_val_other (key key' : string) (v : data) (ks : keyspace) :
  key <> key' -> exec (set_val env self key v) ks !! key' = ks !! key'.
Proof.
  intros Hne. unfold exec. rewrite set_val_run.
  destruct (encode env v); simpl; auto. now rewrite lookup_insert_ne.
Qed.

Lemma eval_get_list (key : string) (ks ks' : keyspace) :
  ks' !! key = ks !! key ->
  eval (get_list env self key) ks' = eval (get_list env self key) ks.
Proof. intros H. unfold eval. rewrite !get_list_run. simpl. now rewrite H. Qed.

Lemma eval_get_val (key : string) (ks ks' : keyspace) :
  ks' !! key = ks !! key ->
  eval (get_val env self key) ks' = eval (get_val env self key) ks.
Proof. intros H. unfold eval. rewrite !get_val_run. simpl. now rewrite H. Qed.

End Frame.

End RedisMore.

Import RedisFacts JsonRoundTrip CodecMore RedisMore.







(** X15.  On the Redis back end a call that writes one key leaves what
    [get_list] and [get_val] return, or raise, on every other key. *)
Theorem other_keys_keep_their_entries (env : interpreter)
    (self : RedisStorage.t) (ks : Redis.keyspace) (key key' : string)
    (v : data) :
  key <> key' ->
  eval (RedisStorage.get_list env self key')
    (exec (RedisStorage.append_val env self key v) ks)
  = eval (RedisStorage.get_list env self key') ks /\
  eval (RedisStorage.get_val env self key')
    (exec (RedisStorage.append_val env self key v) ks)
  = eval (RedisStorage.get_val env self key') ks /\
  eval (RedisStorage.get_list env self key')
    (exec (RedisStorage.set_val env self key v) ks)
  = eval (RedisStorage.get_list env self key') ks /\
  eval (RedisStorage.get_val env self key')
    (exec (RedisStorage.set_val env self key v) ks)
  = eval (RedisStorage.get_val env self key') ks.
Proof.
  intros Hne.
  pose proof (append_val_other env self key key' v ks Hne) as Ha.
  pose proof (set_val_other env self key key' v ks Hne) as Hs.
  split; [now apply eval_get_list|]. split; [now apply eval_get_val|].
  split; [now apply eval_get_list | now apply eval_get_val].
Qed.

Lemma other_keys_keep_their_entries_witness :
  let ks := exec (RedisStorage.append_val cpython plain_backend "h1" entry_42)
              ∅ in
  eval (RedisStorage.get_list cpython plain_backend "h1")
    (exec (RedisStorage.append_val cpython plain_backend "h2" entry_7) ks)
  = eval (RedisStorage.get_list cpython plain_backend "h1") ks /\
  eval (RedisStorage.get_val cpython plain_backend "h1")
    (exec (RedisStorage.append_val cpython plain_backend "h2" entry_7) ks)
  = eval (RedisStorage.get_val cpython plain_backend "h1") ks /\
  eval (RedisStorage.get_list cpython plain_backend "h1")
    (exec (RedisStorage.set_val cpython plain_backend "h2" entry_7) ks)
  = eval (RedisStorage.get_list cpython plain_backend "h1") ks /\
  eval (RedisStorage.get_val cpython plain_backend "h1")
    (exec (RedisStorage.set_val cpython plain_backend "h2" entry_7) ks)
  = eval (RedisStorage.get_val cpython plain_backend "h1") ks.
Proof.
  apply (other_keys_keep_their_entries cpython plain_backend _ "h2" "h1"
           entry_7).
  discriminate.
Defined.

(** X16.  When the constructor of the client refuses the keywords (it
    raises [TypeError] for one it does not know), the factory raises that
    exception and returns no back end; by then it has written [index]
    under ["db"] in the caller's dict. *)
Theorem storage_refused_keywords (lib : Redis.library) (h : heap)
    (cfg index rc : val) (d rd : dict val) (e : exn) :
  Heap.dict_of h cfg = Some d ->
  Dict.contains "dict" d = false ->
  Dict.lookup "redis" d = Some rc ->
  Heap.dict_of h rc = Some rd ->
  Redis.refuses lib (Dict.set "db" index rd) = Some e ->
  eval (storage (Some lib) cfg index) h = inl e /\
  Heap.dict_of (exec (storage (Some lib) cfg index) h) rc
  = Some (Dict.set "db" index rd).
Proof.
  intros Hcfg Hd Hrc Hrd He.
  destruct (storage_redis (Some lib) h cfg index d rc rd Hcfg Hd Hrc Hrd)
    as (l & -> & Hrun).
  unfold eval, exec. rewrite Hrun. simpl. unfold Redis.construct.
  rewrite He. split; [reflexivity|].
  apply dict_of_ref in Hrd as (l' & Hl' & Hl). inversion Hl'; subst l'.
  rewrite list_lookup_insert_eq; [reflexivity|].
  eapply lookup_lt_Some; eauto.
Qed.

Lemma storage_refused_keywords_witness :
  let h := [ODict [("redis", VRef 1)]; ODict [("bogus", VInt 1)]] in
  eval (storage (Some redis_py) (VRef 0) (VInt 3)) h = inl TypeError /\
  Heap.dict_of (exec (storage (Some redis_py) (VRef 0) (VInt 3)) h) (VRef 1)
  = Some (Dict.set "db" (VInt 3) [("bogus", VInt 1)]).
Proof.
  apply (storage_refused_keywords redis_py
           [ODict [("redis", VRef 1)]; ODict [("bogus", VInt 1)]]
           (VRef 0) (VInt 3) (VRef 1) [("redis", VRef 1)]
           [("bogus", VInt 1)] TypeError);
    reflexivity.
Defined.

(** ** Buckets are kept apart *)

Module Buckets.

Import InMemoryStorage InMemoryFacts.

Lemma select_app {V} (key : string) (l1 l2 : list (string * V)) :
  select key (l1 ++ l2) = select key l1 ++ select key l2.
Proof.
  induction l1 as [|[k v] l1 IH]; simpl; [reflexivity|].
  destruct (String.eqb key k); simpl; now rewrite IH.
Qed.

Lemma select_one {V} (key k : string) (v : V) :
  select key [(k, v)] = if String.eqb key k then [v] else [].
Proof. simpl. now destruct (String.eqb key k). Qed.

Lemma append_val_kept_apart (kes : list (string * val)) (w : world)
    (k : string) (e : val) :
  kept_apart kes w ->
  kept_apart (kes ++ [(k, e)]) (exec (append_val k e) w).
Proof.
  destruct w as [h [n d]]. intros [Hl Hi]. simpl in Hl, Hi.
  pose proof (Hl k) as Hk.
  unfold exec, append_val, setdefault, bind, on_heap, get_storage,
    set_storage, Heap.alloc, Heap.append, ret. simpl.
  destruct (Dict.lookup k d) as [v|] eqn:Ek.
  - destruct Hk as (r & -> & Hr). simpl.
    rewrite (lookup_alloc_old _ _ _ _ Hr). simpl.
    pose proof (lookup_lt_Some _ _ _ Hr) as Hlt.
    split; simpl; [|exact Hi].
    intros key. rewrite select_app, select_one. specialize (Hl key).
    destruct (String.eqb key k) eqn:E.
    + apply String.eqb_eq in E. subst key. rewrite Ek. exists r.
      split; [reflexivity|].
      apply list_lookup_insert_eq. rewrite length_app. lia.
    + apply String.eqb_neq in E. rewrite app_nil_r.
      destruct (Dict.lookup key d) as [v|] eqn:Ekey; [|exact Hl].
      destruct Hl as (r' & -> & Hr'). exists r'. split; [reflexivity|].
      rewrite list_lookup_insert_ne.
      * now apply lookup_alloc_old.
      * intros ->. apply E. now apply (Hi key k r').
  - simpl. rewrite lookup_alloc. simpl. split; simpl.
    + intros key. rewrite select_app, select_one. specialize (Hl key).
      destruct (String.eqb key k) eqn:E.
      * apply String.eqb_eq in E. subst key.
        rewrite DictFacts.lookup_set_eq, Hk. exists (length h).
        split; [reflexivity|].
        apply list_lookup_insert_eq. rewrite length_app. simpl. lia.
      * apply String.eqb_neq in E. rewrite app_nil_r.
        rewrite DictFacts.lookup_set_ne by congruence.
        destruct (Dict.lookup key d) as [v|] eqn:Ekey; [|exact Hl].
        destruct Hl as (r' & -> & Hr'). exists r'. split; [reflexivity|].
        pose proof (lookup_lt_Some _ _ _ Hr') as Hlt.
        rewrite list_lookup_insert_ne by lia.
        now apply lookup_alloc_old.
    + intros k1 k2 r. rewrite !DictOrder.lookup_set.
      destruct (String.eqb k1 k) eqn:E1, (String.eqb k2 k) eqn:E2.
      * apply String.eqb_eq in E1, E2. congruence.
      * intros H1 H2. inversion H1; subst r. exfalso.
        specialize (Hl k2). rewrite H2 in Hl.
        destruct Hl as (r' & Hr' & Hlk). inversion Hr'; subst r'.
        apply lookup_lt_Some in Hlk. lia.
      * intros H1 H2. inversion H2; subst r. exfalso.
        specialize (Hl k1). rewrite H1 in Hl.
        destruct Hl as (r' & Hr' & Hlk). inversion Hr'; subst r'.
        apply lookup_lt_Some in Hlk. lia.
      * apply Hi.
Qed.

Lemma appends_kept_apart (h : heap) (config : val)
    (kes : list (string * val)) :
  kept_apart kes (run (fresh h config) (map appending kes)).
Proof.
  unfold run. induction kes as [|[k e] kes IH] using rev_ind.
  - split; simpl; [reflexivity | discriminate].
  - rewrite map_app, fold_left_app. simpl.
    now apply append_val_kept_apart.
Qed.

End Buckets.

Module RedisBuckets.

Import Redis RedisStorage Json RedisFacts JsonRoundTrip Buckets.

Section Appends.

Variable env : interpreter.
Variable glob : string -> string -> bool.
Variable self : RedisStorage.t.



End Appends.

End RedisBuckets.

(** X17.  Appends to any keys, in any order, on a new in-memory back end:
    [get_list(k)] returns the entries that were appended to [k], in the
    order of the calls, and none of those appended to another key. *)
Theorem buckets_are_kept_apart (h : heap) (config : val)
    (kes : list (string * val)) (key : string) :
  InMemoryStorage.listing key
    (InMemoryStorage.run (InMemoryStorage.fresh h config)
       (map appending kes))
  = Some (select key kes).
Proof.
  destruct (Buckets.appends_kept_apart h config kes) as [Hl _].
  specialize (Hl key).
  destruct (Dict.lookup key _) as [v|] eqn:E.
  - destruct Hl as (r & -> & Hr). apply InMemoryFacts.listing_list.
    exists r. auto.
  - rewrite Hl. now apply InMemoryFacts.listing_absent.
Qed.



